(** * The sharded buffer cache of kernel/bio.c

    A shallow embedding of the buffer cache: [binit], [bget], [bread],
    [bwrite], [brelse], [bpin] and [bunpin], with the static helpers
    [myhash] and [bufinit].

    - A [struct buf *] is the index of the buffer in [bcache.buf].
    - The circular doubly linked list hanging off the sentinel
      [bcache.buckets[i]] is the list of its members in [next] order,
      [head.next] first.
    - The code runs in a small state monad whose result records how a
      call ends: it returns, it panics, it goes to sleep on a sleep lock
      that somebody holds, or it indexes an array out of bounds.
    - Spin lock and sleep lock operations, the moves of a buffer between
      buckets and disk transfers are written to a chronological trace of
      events, from which the set of spin locks held at any instant is
      recomputed. *)

From stdpp Require Import base numbers list strings.
From Stdlib Require Import Strings.Byte.

Local Open Scope Z_scope.

(** ** Machine integers *)

(** [uint] values are integers modulo 2^32. *)
Definition wrap32 (z : Z) : Z := z mod 2 ^ 32.

(** The conversion from [uint] to [int] that happens when a block number
    is passed to [myhash (int x)]. *)
Definition to_int (x : Z) : Z := if x <? 2 ^ 31 then x else x - 2 ^ 32.

(** ** Data *)

(** Modelled from the spec: [struct buf] is declared in buf.h, which is
    not part of the sources at hand. The fields are the ones bio.c uses
    ([dev], [blockno], [valid], [refcnt], [lastuse], [lock]) and the
    payload; [lock] is the sleep lock, [None] when free and [Some pid]
    when the process [pid] holds it. The links [prev] and [next] are
    represented by the bucket lists of the cache. *)
Record buf := Buf {
  valid : bool;
  dev : Z;
  blockno : Z;
  lock : option nat;
  refcnt : Z;
  lastuse : Z;
  data : list byte
}.

Definition set_valid (v : bool) (b : buf) : buf :=
  Buf v (dev b) (blockno b) (lock b) (refcnt b) (lastuse b) (data b).
Definition set_lock (l : option nat) (b : buf) : buf :=
  Buf (valid b) (dev b) (blockno b) l (refcnt b) (lastuse b) (data b).
Definition set_refcnt (r : Z) (b : buf) : buf :=
  Buf (valid b) (dev b) (blockno b) (lock b) r (lastuse b) (data b).
Definition set_lastuse (t : Z) (b : buf) : buf :=
  Buf (valid b) (dev b) (blockno b) (lock b) (refcnt b) t (data b).
Definition set_data (d : list byte) (b : buf) : buf :=
  Buf (valid b) (dev b) (blockno b) (lock b) (refcnt b) (lastuse b) d.

(** What a call does to locks, to the membership of buckets and to the
    disk, in the order it does it. *)
Inductive event :=
  | EvAcquire (i : nat)          (* acquire(&bcache.lks[i]) *)
  | EvRelease (i : nat)          (* release(&bcache.lks[i]) *)
  | EvAcquireSleep (b : nat)     (* acquiresleep(&b->lock) *)
  | EvReleaseSleep (b : nat)     (* releasesleep(&b->lock) *)
  | EvDetach (i : nat) (b : nat) (* b taken out of bucket i *)
  | EvAttach (i : nat) (b : nat) (* b put into bucket i *)
  | EvDisk (b : nat) (write : bool). (* virtio_disk_rw(b, write) *)

(** The [bcache] structure together with what it shares with the rest of
    the kernel: the global [ticks], the disk behind [virtio_disk_rw], and
    the trace. *)
Record state := State {
  bufs : list buf;
  buckets : list (list nat);
  ticks : Z;
  disk : Z → Z → list byte;
  trace : list event
}.

Definition set_bufs (bs : list buf) (s : state) : state :=
  State bs (buckets s) (ticks s) (disk s) (trace s).
Definition set_buckets (bk : list (list nat)) (s : state) : state :=
  State (bufs s) bk (ticks s) (disk s) (trace s).
Definition set_disk (d : Z → Z → list byte) (s : state) : state :=
  State (bufs s) (buckets s) (ticks s) d (trace s).
Definition set_trace (tr : list event) (s : state) : state :=
  State (bufs s) (buckets s) (ticks s) (disk s) tr.

(** ** The monad *)

Inductive outcome (A : Type) :=
  | Ret (a : A) (s : state)          (* the call returns a *)
  | Panic (msg : string) (s : state) (* panic(msg) *)
  | Sleep (b : nat) (s : state)      (* asleep in acquiresleep(&b->lock) *)
  | Fault.                           (* array index out of bounds *)
Arguments Ret {A} a s.
Arguments Panic {A} msg s.
Arguments Sleep {A} b s.
Arguments Fault {A}.

Definition M (A : Type) : Type := state → outcome A.

Definition ret {A} (a : A) : M A := λ s, Ret a s.
Definition bind {A B} (m : M A) (f : A → M B) : M B := λ s,
  match m s with
  | Ret a s' => f a s'
  | Panic msg s' => Panic msg s'
  | Sleep b s' => Sleep b s'
  | Fault => Fault
  end.

Declare Scope bio_scope.
Delimit Scope bio_scope with bio.
Bind Scope bio_scope with M.
Notation "x ← y ; z" := (bind y (λ x : _, z))
  (at level 20, y at level 100, z at level 200, only parsing) : bio_scope.
Notation "x ;; z" := (bind x (λ _, z))
  (at level 100, z at level 200, only parsing, right associativity)
  : bio_scope.
Local Open Scope bio_scope.

Definition state_of {A} (o : outcome A) : option state :=
  match o with
  | Ret _ s | Panic _ s | Sleep _ s => Some s
  | Fault => None
  end.

Definition get_state : M state := λ s, Ret s s.
Definition fault {A} : M A := λ _, Fault.
Definition emit (e : event) : M unit :=
  λ s, Ret tt (set_trace (trace s ++ [e]) s).

(** [*b] for reading, [*b = ...] for writing one buffer of [bcache.buf]. *)
Definition get_buf (b : nat) : M buf :=
  λ s, match bufs s !! b with Some bf => Ret bf s | None => Fault end.
Definition modify_buf (b : nat) (f : buf → buf) : M unit :=
  λ s, match bufs s !! b with
       | Some bf => Ret tt (set_bufs (<[b := f bf]> (bufs s)) s)
       | None => Fault
       end.

(** The members of [bcache.buckets[i]], and its relinking. *)
Definition get_bucket (i : nat) : M (list nat) :=
  λ s, match buckets s !! i with Some l => Ret l s | None => Fault end.
Definition put_bucket (i : nat) (l : list nat) : M unit :=
  λ s, match buckets s !! i with
       | Some _ => Ret tt (set_buckets (<[i := l]> (buckets s)) s)
       | None => Fault
       end.

Definition get_ticks : M Z := λ s, Ret (ticks s) s.

(** ** The kernel services bio.c calls *)

(** Modelled from the spec: panic is fatal, it does not return. *)
Definition panic {A} (msg : string) : M A := λ s, Panic msg s.

(** Modelled from the spec: the short-hold lock of a shard (spinlock.c is
    not part of the sources at hand). Every call of bio.c starts with no
    shard lock held by its caller, so taking and dropping a shard lock is
    recorded in the trace and nothing else. *)
Definition acquire (i : nat) : M unit := emit (EvAcquire i).
Definition release (i : nat) : M unit := emit (EvRelease i).

(** Modelled from the spec: the long-hold access lock of a buffer
    (sleeplock.c is not part of the sources at hand). [acquiresleep]
    takes a free lock for the calling process [p]; on a lock that is held
    the caller sleeps, which ends the call in this model. *)
Definition acquiresleep (p b : nat) : M unit :=
  bf ← get_buf b;
  match lock bf with
  | None => modify_buf b (set_lock (Some p));; emit (EvAcquireSleep b)
  | Some _ => λ s, Sleep b s
  end.
Definition releasesleep (b : nat) : M unit :=
  modify_buf b (set_lock None);; emit (EvReleaseSleep b).
Definition holdingsleep (p b : nat) : M bool :=
  bf ← get_buf b;
  ret (bool_decide (lock bf = Some p)).

(** Modelled from the spec: the device transfer of one block between the
    payload of the buffer and the disk block of its identity. *)
Definition virtio_disk_rw (b : nat) (write : bool) : M unit :=
  bf ← get_buf b;
  s ← get_state;
  emit (EvDisk b write);;
  if write
  then λ s', Ret tt (set_disk (λ d n, if (d =? dev bf) && (n =? blockno bf)
                                      then data bf else disk s d n) s')
  else modify_buf b (set_data (disk s (dev bf) (blockno bf))).

Section Bio.

(** The constants of param.h and fs.h, which are not part of the sources at
    hand. *)
Variable NBUCKET : nat.
Variable NBUF : nat.
Variable BSIZE : nat.

(** ** bio.c *)

(** [x % NBUCKET] on [int], which truncates towards zero. *)
Definition myhash (x : Z) : Z := Z.rem x (Z.of_nat NBUCKET).

(** [bcache.lks[id]] and [bcache.buckets[id]] for an [int id]: the arrays
    have [NBUCKET] elements, any other index is out of bounds. *)
Definition bucket_index (id : Z) : option nat :=
  if (0 <=? id) && (id <? Z.of_nat NBUCKET) then Some (Z.to_nat id) else None.
Definition shard (id : Z) : M nat :=
  match bucket_index id with Some i => ret i | None => fault end.

Definition bufinit (b : nat) (dev blockno : Z) : M unit :=
  modify_buf b (λ bf,
    Buf false dev blockno (lock bf) 1 (lastuse bf) (data bf)).

Definition initlock (i : nat) : M unit := ret tt.
Definition initsleeplock (b : nat) : M unit := modify_buf b (set_lock None).

(** [for (x in xs) body x] *)
Fixpoint for_each {A} (xs : list A) (body : A → M unit) : M unit :=
  match xs with
  | [] => ret tt
  | x :: rest => body x;; for_each rest body
  end.

Definition binit : M unit :=
  for_each (seq 0 NBUCKET) initlock;;
  for_each (seq 0 NBUCKET) (λ i, put_bucket i []);;
  for_each (seq 0 NBUF) (λ b,
    (* b->next = buckets[0].next; b->prev = &buckets[0];
       buckets[0].next->prev = b; buckets[0].next = b *)
    members ← get_bucket 0;
    initsleeplock b;;
    put_bucket 0 (b :: members)).

(** The first loop of [bget]: the first member, in list order, with the
    identity asked for. *)
Fixpoint find_cached (bs : list buf) (members : list nat) (dev' blockno' : Z)
  : option nat :=
  match members with
  | [] => None
  | b :: rest =>
    match bs !! b with
    | Some bf =>
      if (dev bf =? dev') && (blockno bf =? blockno')
      then Some b
      else find_cached bs rest dev' blockno'
    | None => find_cached bs rest dev' blockno'
    end
  end.

(** The victim loops of [bget], with their two loop variables. *)
Fixpoint scan_victim (bs : list buf) (members : list nat)
    (minticks : Z) (victm : option nat) : Z * option nat :=
  match members with
  | [] => (minticks, victm)
  | b :: rest =>
    match bs !! b with
    | Some bf =>
      if (refcnt bf =? 0) && (lastuse bf <=? minticks)
      then scan_victim bs rest (lastuse bf) (Some b)
      else scan_victim bs rest minticks victm
    | None => scan_victim bs rest minticks victm
    end
  end.

(** [victm->next->prev = victm->prev; victm->prev->next = victm->next] *)
Fixpoint unlink (v : nat) (members : list nat) : list nat :=
  match members with
  | [] => []
  | b :: rest => if decide (b = v) then rest else b :: unlink v rest
  end.

(** Taking [victm] out of the [i]-th bucket. *)
Definition detach (i victm : nat) : M unit :=
  members ← get_bucket i;
  put_bucket i (unlink victm members);;
  emit (EvDetach i victm).

(** Attaching [victm] at the head of the [id]-th bucket. *)
Definition attach (id victm : nat) : M unit :=
  target ← get_bucket id;
  put_bucket id (victm :: target);;
  emit (EvAttach id victm).

(** The loop under the label [steal], over the bucket indices still to
    visit, and the two statements after it. *)
Fixpoint steal (p : nat) (id : nat) (dev blockno : Z) (others : list nat)
  : M nat :=
  match others with
  | [] =>
    release id;;
    panic "bget: no buf"
  | i :: rest =>
    if decide (i = id) then steal p id dev blockno rest
    else
      acquire i;;
      minticks ← get_ticks;
      members ← get_bucket i;
      s ← get_state;
      match (scan_victim (bufs s) members minticks None).2 with
      | None =>
        release i;;
        steal p id dev blockno rest
      | Some victm =>
        bufinit victm dev blockno;;
        detach i victm;;
        release i;;
        attach id victm;;
        release id;;
        acquiresleep p victm;;
        ret victm
      end
  end.

(** The operations that sleep or check the holder of a sleep lock take the
    calling process [p], the [myproc ()] of the kernel. *)
Definition bget (p : nat) (dev blockno : Z) : M nat :=
  id ← shard (myhash (to_int blockno));
  acquire id;;
  members ← get_bucket id;
  s ← get_state;
  match find_cached (bufs s) members dev blockno with
  | Some b =>
    modify_buf b (λ bf, set_refcnt (wrap32 (refcnt bf + 1)) bf);;
    release id;;
    acquiresleep p b;;
    ret b
  | None =>
    minticks ← get_ticks;
    match (scan_victim (bufs s) members minticks None).2 with
    | Some victm =>
      bufinit victm dev blockno;;
      release id;;
      acquiresleep p victm;;
      ret victm
    | None => steal p id dev blockno (seq 0 NBUCKET)
    end
  end.

Definition bread (p : nat) (dev blockno : Z) : M nat :=
  b ← bget p dev blockno;
  bf ← get_buf b;
  (if negb (valid bf)
   then virtio_disk_rw b false;; modify_buf b (set_valid true)
   else ret tt);;
  ret b.

Definition bwrite (p : nat) (b : nat) : M unit :=
  held ← holdingsleep p b;
  if negb held then panic "bwrite"
  else virtio_disk_rw b true.

Definition brelse (p : nat) (b : nat) : M unit :=
  held ← holdingsleep p b;
  if negb held then panic "brelse"
  else
    releasesleep b;;
    bf ← get_buf b;
    id ← shard (myhash (to_int (blockno bf)));
    acquire id;;
    modify_buf b (λ bf, set_refcnt (wrap32 (refcnt bf - 1)) bf);;
    bf' ← get_buf b;
    (if refcnt bf' =? 0
     then t ← get_ticks; modify_buf b (set_lastuse t)
     else ret tt);;
    release id.

Definition bpin (b : nat) : M unit :=
  bf ← get_buf b;
  id ← shard (myhash (to_int (blockno bf)));
  acquire id;;
  modify_buf b (λ bf, set_refcnt (wrap32 (refcnt bf + 1)) bf);;
  release id.

Definition bunpin (b : nat) : M unit :=
  bf ← get_buf b;
  id ← shard (myhash (to_int (blockno bf)));
  acquire id;;
  modify_buf b (λ bf, set_refcnt (wrap32 (refcnt bf - 1)) bf);;
  release id.

(** The memory of the cache before [binit]: zeroed static storage, and
    the disk [d]. *)
Definition zero_buf : buf := Buf false 0 0 None 0 0 (replicate BSIZE x00).
Definition boot (d : Z → Z → list byte) : state :=
  State (replicate NBUF zero_buf) (replicate NBUCKET []) 0 d [].

(** A process asleep in [acquiresleep] at the end of [bget] is woken when
    the lock is released; it then takes the lock, [bget] returns, and the
    rest of [bread] runs. *)
Definition wakeup (p : nat) (b : nat) : M nat :=
  acquiresleep p b;;
  bf ← get_buf b;
  (if negb (valid bf)
   then virtio_disk_rw b false;; modify_buf b (set_valid true)
   else ret tt);;
  ret b.

(** ** Vocabulary of the properties *)

(** The shard of a block number. *)
Definition shard_of (blockno : Z) : option nat :=
  bucket_index (myhash (to_int blockno)).

(** A member the loop can take: nobody refers to it and its stamp is not
    above the bound. *)
Definition candidate (bs : list buf) (bound : Z) (b : nat) : Prop :=
  ∃ bf, bs !! b = Some bf ∧ refcnt bf = 0 ∧ lastuse bf ≤ bound.

(** The buffer as [bufinit] leaves it. *)
Definition reinit (dev' blockno' : Z) (bf : buf) : buf :=
  Buf false dev' blockno' (lock bf) 1 (lastuse bf) (data bf).

(** The events of the buckets that were visited and had no victim. *)
Definition skip_events (skipped : list nat) : list event :=
  concat (map (λ i, [EvAcquire i; EvRelease i]) skipped).

(** How the loop under [steal] ends, in terms of the state it starts in. *)
Inductive steal_outcome (p id : nat) (dev' blockno' : Z) (others : list nat)
    (s : state) : outcome nat → Prop :=
  | steal_fault i :
    i ∈ id :: others → buckets s !! i = None →
    steal_outcome p id dev' blockno' others s Fault
  | steal_none skipped :
    skipped = filter (λ i, i ≠ id) others →
    (∀ i, i ∈ skipped → ∃ members, buckets s !! i = Some members ∧
       ∀ x, x ∈ members → ¬ candidate (bufs s) (ticks s) x) →
    steal_outcome p id dev' blockno' others s
      (Panic "bget: no buf"
         (State (bufs s) (buckets s) (ticks s) (disk s)
            (trace s ++ skip_events skipped ++ [EvRelease id])))
  | steal_some skipped i v members target bf :
    i ≠ id → i ∈ others → id ∉ skipped →
    buckets s !! i = Some members →
    buckets s !! id = Some target →
    (scan_victim (bufs s) members (ticks s) None).2 = Some v →
    bufs s !! v = Some bf →
    steal_outcome p id dev' blockno' others s
      ((acquiresleep p v;; ret v)%bio
         (State (<[v := reinit dev' blockno' bf]> (bufs s))
            (<[id := v :: target]> (<[i := unlink v members]> (buckets s)))
            (ticks s) (disk s)
            (trace s ++ skip_events skipped
               ++ [EvAcquire i; EvDetach i v; EvRelease i; EvAttach id v;
                   EvRelease id]))).

(** How [bget] ends, in terms of the state it starts in. *)
Inductive bget_outcome (p : nat) (dev' blockno' : Z) (s : state)
    : outcome nat → Prop :=
  | bget_fault :
    shard_of blockno' = None ∨
    (∃ i, (i < NBUCKET)%nat ∧ buckets s !! i = None) →
    bget_outcome p dev' blockno' s Fault
  | bget_is_hit id members b bf :
    shard_of blockno' = Some id →
    buckets s !! id = Some members →
    find_cached (bufs s) members dev' blockno' = Some b →
    bufs s !! b = Some bf →
    bget_outcome p dev' blockno' s
      ((acquiresleep p b;; ret b)%bio
         (State (<[b := set_refcnt (wrap32 (refcnt bf + 1)) bf]> (bufs s))
            (buckets s) (ticks s) (disk s)
            (trace s ++ [EvAcquire id; EvRelease id])))
  | bget_is_local id members v bf :
    shard_of blockno' = Some id →
    buckets s !! id = Some members →
    find_cached (bufs s) members dev' blockno' = None →
    (scan_victim (bufs s) members (ticks s) None).2 = Some v →
    bufs s !! v = Some bf →
    bget_outcome p dev' blockno' s
      ((acquiresleep p v;; ret v)%bio
         (State (<[v := reinit dev' blockno' bf]> (bufs s))
            (buckets s) (ticks s) (disk s)
            (trace s ++ [EvAcquire id; EvRelease id])))
  | bget_is_steal id members o :
    shard_of blockno' = Some id →
    buckets s !! id = Some members →
    find_cached (bufs s) members dev' blockno' = None →
    (scan_victim (bufs s) members (ticks s) None).2 = None →
    steal_outcome p id dev' blockno' (seq 0 NBUCKET)
      (State (bufs s) (buckets s) (ticks s) (disk s)
         (trace s ++ [EvAcquire id])) o →
    bget_outcome p dev' blockno' s o.

(** The buffer a call of [bget] hands out: the one it returns, or the one
    whose lock it is asleep on and will return when woken. *)
Definition handed_out (o : outcome nat) : option nat :=
  match o with
  | Ret b _ | Sleep b _ => Some b
  | Panic _ _ | Fault => None
  end.

(** *** Shard locks held along a trace *)

Definition lock_step (held : list nat) (e : event) : list nat :=
  match e with
  | EvAcquire i => i :: held
  | EvRelease i => filter (λ j, j ≠ i) held
  | EvAcquireSleep _ | EvReleaseSleep _ | EvDetach _ _ | EvAttach _ _
  | EvDisk _ _ => held
  end.

(** The shard locks held once the events [evs] have happened, starting
    with none. *)
Definition held_after (evs : list event) : list nat :=
  fold_left lock_step evs [].

(** At every instant of [evs] at most one shard lock is held. *)
Definition one_lock_at_a_time (evs : list event) : Prop :=
  ∀ pre, pre `prefix_of` evs → (length (held_after pre) ≤ 1)%nat.

(** At every instant of [evs] the locks held are none, the lock of shard
    [id] alone, or the lock of [id] and on top of it one other. *)
Definition target_and_one_other (id : nat) (evs : list event) : Prop :=
  ∀ pre, pre `prefix_of` evs →
    held_after pre = [] ∨ held_after pre = [id] ∨
    ∃ i, i ≠ id ∧ held_after pre = [i; id].

(** The locks under which a call of [bget] for a block of shard [id]
    moves a buffer: it takes it out of bucket [i] holding the locks of [i]
    and of [id], and puts it into bucket [id] holding the lock of [id]
    alone. *)
Definition move_locked (id : nat) (held : list nat) (e : event) : Prop :=
  match e with
  | EvDetach i _ => i ≠ id ∧ held = [i; id]
  | EvAttach j _ => j = id ∧ held = [id]
  | _ => True
  end.

Definition moves_under_locks (id : nat) (evs : list event) : Prop :=
  ∀ pre e, (pre ++ [e]) `prefix_of` evs → move_locked id (held_after pre) e.

(** The lock of shard [id] is taken by the first event of [evs] and is
    held at every instant from there up to the event that drops it; from
    that event on no shard lock is held, and [tail] is what follows it. *)
Definition target_held_until_release (id : nat) (evs tail : list event)
  : Prop :=
  ∃ mid,
    evs = EvAcquire id :: mid ++ EvRelease id :: tail ∧
    (∀ pre, pre `prefix_of` mid → id ∈ held_after (EvAcquire id :: pre)) ∧
    held_after (EvAcquire id :: mid ++ [EvRelease id]) = [].

(** What a call of [bget] does after it has dropped the lock of its
    shard: it takes the sleep lock and returns, or it has nothing more to
    record, when it goes to sleep on the sleep lock or panics. *)
Definition after_release (o : outcome nat) : list event :=
  match o with
  | Ret b _ => [EvAcquireSleep b]
  | Panic _ _ | Sleep _ _ | Fault => []
  end.

(** Both rules for one event of a call of [bget] for a block of shard
    [id]: which locks may be held after it, and under which locks it may
    move a buffer. *)
Definition lock_rule (id : nat) (held : list nat) (e : event) : Prop :=
  (lock_step held e = [] ∨ lock_step held e = [id] ∨
   ∃ i, i ≠ id ∧ lock_step held e = [i; id]) ∧
  move_locked id held e.

(** [Q held e] holds of every event [e] of [evs] and the shard locks [held]
    at the instant before it, [held] being held at the start. *)
Fixpoint along (Q : list nat → event → Prop) (held : list nat)
    (evs : list event) : Prop :=
  match evs with
  | [] => True
  | e :: rest => Q held e ∧ along Q (lock_step held e) rest
  end.

Definition is_disk (e : event) : bool :=
  match e with EvDisk _ _ => true | _ => false end.

(** *** The statements that the code does not meet, as they are worded *)

(** Every call of [bget] holds at most one shard lock at any instant. *)
Definition bget_one_lock_at_a_time : Prop :=
  ∀ p dev' blockno' s s',
    state_of (bget p dev' blockno' s) = Some s' →
    ∃ evs, trace s' = trace s ++ evs ∧ one_lock_at_a_time evs.

(** The hit path does not hand out a matching member whose [valid] is
    false. *)
Definition hit_requires_valid : Prop :=
  ∀ p dev' blockno' s id members b bf,
    shard_of blockno' = Some id →
    buckets s !! id = Some members →
    find_cached (bufs s) members dev' blockno' = Some b →
    bufs s !! b = Some bf →
    valid bf = false →
    handed_out (bget p dev' blockno' s) ≠ Some b.


(** An operation called by a process that does not hold the sleep lock of
    the buffer panics. *)
Definition unheld_is_fatal (op : nat → nat → M unit) : Prop :=
  ∀ p b s bf,
    bufs s !! b = Some bf → lock bf ≠ Some p →
    ∃ msg s', op p b s = Panic msg s'.

(** *** Invariants and reachable states *)

Record wf (s : state) : Prop := {
  wf_buckets : length (buckets s) = NBUCKET;
  wf_bufs : length (bufs s) = NBUF;
  wf_nodup : ∀ i m, buckets s !! i = Some m → NoDup m;
  wf_hashed : ∀ i m b, buckets s !! i = Some m → b ∈ m →
    ∃ bf, bufs s !! b = Some bf ∧ shard_of (blockno bf) = Some i;
  wf_cover : ∀ b, (b < length (bufs s))%nat →
    ∃ i m, buckets s !! i = Some m ∧ b ∈ m;
  wf_stamps : ∀ b bf, bufs s !! b = Some bf → lastuse bf ≤ ticks s
}.

(** One step of the system: the clock moves on, or some process calls the
    interface of the cache, up to the point where the call returns, panics
    or goes to sleep.

    Modelled from the spec: the tick source is a counter that never
    decreases (the global [ticks] is kept by code outside bio.c). *)
Inductive step (s : state) : state → Prop :=
  | step_tick t :
    ticks s ≤ t →
    step s (State (bufs s) (buckets s) t (disk s) (trace s))
  | step_bread p dev' blockno' s' :
    state_of (bread p dev' blockno' s) = Some s' → step s s'
  | step_wakeup p b s' :
    state_of (wakeup p b s) = Some s' → step s s'
  | step_bwrite p b s' :
    state_of (bwrite p b s) = Some s' → step s s'
  | step_brelse p b s' :
    state_of (brelse p b s) = Some s' → step s s'
  | step_bpin b s' :
    state_of (bpin b s) = Some s' → step s s'
  | step_bunpin b s' :
    state_of (bunpin b s) = Some s' → step s s'.

Inductive reachable : state → Prop :=
  | reachable_init d s :
    binit (boot d) = Ret tt s → reachable s
  | reachable_step s s' :
    reachable s → step s s' → reachable s'.

(** In every state the cache can reach, the index of the bucket a buffer
    is a member of is the block number of the buffer modulo [NBUCKET]. *)
Definition bucket_is_blockno_mod : Prop :=
  ∀ s, reachable s →
    ∀ i m b bf, buckets s !! i = Some m → b ∈ m → bufs s !! b = Some bf →
      Z.of_nat i = blockno bf mod Z.of_nat NBUCKET.

(** The buckets and the clock are the same, and every buffer has kept its
    block number and either kept its stamp or been stamped with the
    current tick. *)
Definition same_shards (s s' : state) : Prop :=
  buckets s' = buckets s ∧
  ticks s' = ticks s ∧
  length (bufs s') = length (bufs s) ∧
  ∀ b bf, bufs s !! b = Some bf →
    ∃ bf', bufs s' !! b = Some bf' ∧ blockno bf' = blockno bf ∧
      (lastuse bf' = lastuse bf ∨ lastuse bf' = ticks s).

(** A computation that moves no buffer between shards. *)
Definition frames {A} (m : M A) : Prop :=
  ∀ s s', state_of (m s) = Some s' → same_shards s s'.

(** [k] buffers are locked, every locked buffer is referred to, and no
    reference count is above [k]. *)
Definition held_count (k : nat) (s : state) : Prop :=
  length (filter (λ bf, lock bf ≠ None) (bufs s)) = k ∧
  ∀ b bf, bufs s !! b = Some bf →
    0 ≤ refcnt bf ≤ Z.of_nat k ∧ (lock bf ≠ None → 0 < refcnt bf).

(** Acquisitions in a row, each of which returns, and none released. *)
Fixpoint acquire_all (reqs : list (nat * Z * Z)) (s : state) : option state :=
  match reqs with
  | [] => Some s
  | (p, dev', blockno') :: rest =>
    match bget p dev' blockno' s with
    | Ret _ s' => acquire_all rest s'
    | _ => None
    end
  end.

(** Calls of [bget] in a row, whatever way each ends, as long as none
    indexes out of bounds. *)
Fixpoint bget_all (reqs : list (nat * Z * Z)) (s : state) : option state :=
  match reqs with
  | [] => Some s
  | (p, dev', blockno') :: rest =>
    match state_of (bget p dev' blockno' s) with
    | Some s' => bget_all rest s'
    | None => None
    end
  end.

End Bio.

Local Close Scope bio_scope.

(** ** A small configuration: 3 shards, 4 buffers, blocks of 2 bytes *)

Definition demo_disk : Z → Z → list byte := λ _ _, [x00; x00].

(** The cache as [binit] leaves it: every buffer in bucket 0, the last one
    first. *)
Definition demo_init : state :=
  State (replicate 4 (zero_buf 2)) [[3; 2; 1; 0]; []; []]%nat 0 demo_disk [].

(** The state of an outcome, [demo_init] when there is none. *)
Definition demo_after {A} (o : outcome A) : state :=
  default demo_init (state_of o).

(** Process 7 has asked for block 1 of device 1; the block hashes to the
    empty bucket 1, so buffer 0 was stolen from bucket 0. *)
Definition demo_stolen : state :=
  Eval vm_compute in demo_after (bget 3 7 1 1 demo_init).

(** Process 7 has read block 1 of device 1 and holds buffer 0. *)
Definition demo_read : state :=
  Eval vm_compute in demo_after (bread 3 7 1 1 demo_init).

(** Then the clock has ticked five times. *)
Definition demo_later : state :=
  State (bufs demo_read) (buckets demo_read) 5 (disk demo_read)
    (trace demo_read).

(** Then process 7 has released the buffer. *)
Definition demo_released : state :=
  Eval vm_compute in demo_after (brelse 3 7 0 demo_later).

(** Processes 1 to 4 each hold a buffer, for the blocks 1 to 4 of
    device 1. *)
Definition demo_requests : list (nat * Z * Z) :=
  [(1%nat, 1, 1); (2%nat, 1, 2); (3%nat, 1, 3); (4%nat, 1, 4)].
Definition demo_full : state :=
  Eval vm_compute in default demo_init (acquire_all 3 demo_requests demo_init).

(** Then process 4 has released its buffer, buffer 3 in bucket 1: the only
    buffer without a reference. *)
Definition demo_one_free : state :=
  Eval vm_compute in demo_after (brelse 3 4 3 demo_full).

(** From [demo_init], process 7 has read block 4294967293 of device 1,
    which is -3 as an [int] and hashes to shard 0, into buffer 0. *)
Definition demo_big : state :=
  Eval vm_compute in demo_after (bread 3 7 1 4294967293 demo_init).

(** From [demo_stolen], where process 7 holds buffer 0 for block 1 of
    device 1 and has not read it, process 8 has asked for the same block
    and is asleep on the lock of buffer 0. *)
Definition demo_waiting : state :=
  Eval vm_compute in demo_after (bread 3 8 1 1 demo_stolen).

(** Then process 7 has released buffer 0, still not [valid]. *)
Definition demo_woken : state :=
  Eval vm_compute in demo_after (brelse 3 7 0 demo_waiting).

(** Then process 8 has been woken and [bread] has returned buffer 0 to
    it. *)
Definition demo_handed : state :=
  Eval vm_compute in demo_after (wakeup 8 0 demo_woken).



(** After [demo_read], processes 8 and 9 ask for block 4 and for block 1,
    which process 7 holds. *)
Definition demo_crowd : list (nat * Z * Z) := [(8%nat, 1, 4); (9%nat, 1, 1)].
Definition demo_crowded : state :=
  Eval vm_compute in default demo_init (bget_all 3 demo_crowd demo_read).

(** ** Running the monad *)

Local Open Scope bio_scope.

Ltac run :=
  repeat (progress (
    unfold bind, ret, fault, panic, get_state, get_ticks, get_buf, modify_buf,
      get_bucket, put_bucket, acquire, release, emit, acquiresleep,
      releasesleep, holdingsleep, virtio_disk_rw, bufinit, shard, detach,
      attach,
      set_trace, set_bufs, set_buckets, set_disk;
    simpl)).

Section BioFacts.

Variable NBUCKET : nat.
Variable NBUF : nat.
Variable BSIZE : nat.

Local Abbreviation myhash := (myhash NBUCKET).
Local Abbreviation bucket_index := (bucket_index NBUCKET).
Local Abbreviation shard_of := (shard_of NBUCKET).
Local Abbreviation bget_outcome := (bget_outcome NBUCKET).
Local Abbreviation wf := (wf NBUCKET NBUF).
Local Abbreviation step := (step NBUCKET).
Local Abbreviation reachable := (reachable NBUCKET NBUF BSIZE).
Local Abbreviation binit := (binit NBUCKET NBUF).
Local Abbreviation boot := (boot NBUCKET NBUF BSIZE).
Local Abbreviation acquire_all := (acquire_all NBUCKET).
Local Abbreviation bget_all := (bget_all NBUCKET).
Local Abbreviation bget := (bget NBUCKET).
Local Abbreviation bread := (bread NBUCKET).
Local Abbreviation brelse := (brelse NBUCKET).
Local Abbreviation bpin := (bpin NBUCKET).
Local Abbreviation bunpin := (bunpin NBUCKET).

Lemma bucket_index_lt id i : bucket_index id = Some i → (i < NBUCKET)%nat.
Proof.
  unfold bucket_index. case_match; [|done].
  intros [= <-]. lia.
Qed.

Lemma shard_of_small blockno :
  0 ≤ blockno < 2 ^ 31 → (0 < NBUCKET)%nat →
  shard_of blockno = Some (Z.to_nat (blockno mod Z.of_nat NBUCKET)).
Proof.
  intros Hb Hn. unfold shard_of, bucket_index, myhash, to_int.
  assert ((blockno <? 2 ^ 31) = true) as -> by lia.
  rewrite Z.rem_mod_nonneg by lia.
  pose proof (Z.mod_pos_bound blockno (Z.of_nat NBUCKET) ltac:(lia)).
  assert ((0 <=? blockno `mod` Z.of_nat NBUCKET)
          && (blockno `mod` Z.of_nat NBUCKET <? Z.of_nat NBUCKET) = true)
    as -> by lia.
  done.
Qed.

(** *** The first loop of [bget] *)

Lemma find_cached_Some bs members dev' blockno' b :
  find_cached bs members dev' blockno' = Some b →
  ∃ bf, bs !! b = Some bf ∧ dev bf = dev' ∧ blockno bf = blockno' ∧ b ∈ members.
Proof.
  induction members as [|x members IH]; simpl; [done|].
  destruct (bs !! x) as [bf|] eqn:Hx.
  - destruct ((dev bf =? dev') && (blockno bf =? blockno')) eqn:Hid.
    + intros [= <-]. exists bf. split_and!; [done|lia|lia|left].
    + intros (bf' & ? & ? & ? & ?)%IH. exists bf'. split_and!; [done..|by right].
  - intros (bf' & ? & ? & ? & ?)%IH. exists bf'. split_and!; [done..|by right].
Qed.

(** *** The victim loops *)

(** What the loop leaves in [victm] and [minticks]: either nothing was
    taken, or the victim is a member without references whose stamp is
    [minticks], and no member without references has a smaller stamp. *)
Lemma scan_victim_spec bs members minticks victm m v :
  scan_victim bs members minticks victm = (m, v) →
  (v = victm ∧ m = minticks ∧ ∀ x, x ∈ members → ¬ candidate bs minticks x)
  ∨ (∃ b bf, v = Some b ∧ b ∈ members ∧ bs !! b = Some bf ∧
       refcnt bf = 0 ∧ lastuse bf = m ∧ m ≤ minticks ∧
       ∀ x bfx, x ∈ members → bs !! x = Some bfx → refcnt bfx = 0 →
         m ≤ lastuse bfx).
Proof.
  revert minticks victm.
  induction members as [|x members IH]; intros minticks victm; simpl.
  - intros [= <- <-]. left. split_and!; [done..|]. intros ? []%elem_of_nil.
  - destruct (bs !! x) as [bf|] eqn:Hx.
    + destruct ((refcnt bf =? 0) && (lastuse bf <=? minticks)) eqn:Hc.
      * intros Hs. right.
        destruct (IH _ _ Hs) as [(-> & -> & Hno)|(b & bfb & -> & Hb & Hbf & Hr & Hl & Hle & Hmin)].
        -- exists x, bf. split_and!; [done|left|done|lia|done|lia|].
           intros y bfy [->|Hy]%elem_of_cons Hbfy Hry.
           ++ rewrite Hx in Hbfy. injection Hbfy as <-. lia.
           ++ destruct (Z.le_gt_cases (lastuse bf) (lastuse bfy)) as [|Hlt]; [done|].
              exfalso. apply (Hno y Hy). exists bfy. split_and!; [done..|lia].
        -- exists b, bfb. split_and!; [done|by right|done..|lia|].
           intros y bfy [->|Hy]%elem_of_cons Hbfy Hry; [|by eauto].
           rewrite Hx in Hbfy. injection Hbfy as <-. lia.
      * intros Hs.
        destruct (IH _ _ Hs) as [(-> & -> & Hno)|(b & bfb & -> & Hb & Hbf & Hr & Hl & Hle & Hmin)].
        -- left. split_and!; [done..|].
           intros y [->|Hy]%elem_of_cons; [|by eauto].
           intros (bfy & Hbfy & ? & ?). rewrite Hx in Hbfy. injection Hbfy as <-. lia.
        -- right. exists b, bfb. split_and!; [done|by right|done..|].
           intros y bfy [->|Hy]%elem_of_cons Hbfy Hry; [|by eauto].
           rewrite Hx in Hbfy. injection Hbfy as <-. lia.
    + intros Hs.
      destruct (IH _ _ Hs) as [(-> & -> & Hno)|(b & bfb & -> & Hb & Hbf & Hr & Hl & Hle & Hmin)].
      * left. split_and!; [done..|].
        intros y [->|Hy]%elem_of_cons; [|by eauto].
        intros (bfy & Hbfy & ? & ?). congruence.
      * right. exists b, bfb. split_and!; [done|by right|done..|].
        intros y bfy [->|Hy]%elem_of_cons Hbfy Hry; [congruence|by eauto].
Qed.

Lemma scan_victim_None bs members minticks :
  (scan_victim bs members minticks None).2 = None →
  ∀ x, x ∈ members → ¬ candidate bs minticks x.
Proof.
  destruct (scan_victim bs members minticks None) as [m v] eqn:Hs. simpl.
  intros ->. by destruct (scan_victim_spec _ _ _ _ _ _ Hs) as [(_ & _ & ?)|(? & ? & ? & _)].
Qed.

Lemma scan_victim_Some bs members minticks b :
  (scan_victim bs members minticks None).2 = Some b →
  ∃ bf, b ∈ members ∧ bs !! b = Some bf ∧ refcnt bf = 0 ∧
    lastuse bf ≤ minticks ∧
    ∀ x bfx, x ∈ members → bs !! x = Some bfx → refcnt bfx = 0 →
      lastuse bf ≤ lastuse bfx.
Proof.
  destruct (scan_victim bs members minticks None) as [m v] eqn:Hs. simpl.
  intros ->.
  destruct (scan_victim_spec _ _ _ _ _ _ Hs)
    as [(? & _)|(b' & bf & [= <-] & ? & ? & ? & <- & ? & ?)]; [done|].
  by exists bf.
Qed.

Lemma scan_victim_found bs members minticks x :
  x ∈ members → candidate bs minticks x →
  ∃ b, (scan_victim bs members minticks None).2 = Some b.
Proof.
  intros Hx Hc.
  destruct (scan_victim bs members minticks None).2 as [b|] eqn:Hs; [by eauto|].
  by destruct (scan_victim_None _ _ _ Hs x Hx).
Qed.

(** *** The three ways through [bget] *)

(** Among members of equal stamp the loop keeps the last one it sees. *)
Lemma scan_victim_last bs members minticks victm m v :
  scan_victim bs members minticks victm = (m, Some v) →
  (victm = Some v ∧ m = minticks ∧
   ∀ x bfx, x ∈ members → bs !! x = Some bfx → refcnt bfx = 0 →
     minticks < lastuse bfx)
  ∨ (∃ before after bf,
       members = before ++ v :: after ∧ bs !! v = Some bf ∧
       refcnt bf = 0 ∧ lastuse bf = m ∧ m ≤ minticks ∧
       ∀ x bfx, x ∈ after → bs !! x = Some bfx → refcnt bfx = 0 →
         m < lastuse bfx).
Proof.
  revert minticks victm.
  induction members as [|b rest IH]; intros minticks victm; simpl.
  - intros [= <- <-]. left. split_and!; [done..|]. by intros x bfx ?%elem_of_nil.
  - destruct (bs !! b) as [bfb|] eqn:Hb.
    + destruct ((refcnt bfb =? 0) && (lastuse bfb <=? minticks)) eqn:Hc.
      * intros [(Hv & -> & Hrest)|(before & after & bf & -> & Hbf & Hr & Hl
                                   & Hle & Hafter)]%IH.
        -- injection Hv as <-. right. exists [], rest, bfb.
           split_and!; [done|done|lia|done|lia|done].
        -- right. exists (b :: before), after, bf.
           split_and!; [done|done|done|done|lia|done].
      * intros [(-> & -> & Hrest)|(before & after & bf & -> & Hbf & Hr & Hl
                                   & Hle & Hafter)]%IH.
        -- left. split_and!; [done..|].
           intros x bfx [->|Hx]%elem_of_cons Hbx Hrx; [|by eapply Hrest].
           assert (bfx = bfb) as -> by congruence. lia.
        -- right. exists (b :: before), after, bf.
           split_and!; done.
    + intros [(-> & -> & Hrest)|(before & after & bf & -> & Hbf & Hr & Hl
                                 & Hle & Hafter)]%IH.
      * left. split_and!; [done..|].
        intros x bfx [->|Hx]%elem_of_cons Hbx Hrx; [congruence|].
        by eapply Hrest.
      * right. exists (b :: before), after, bf. split_and!; done.
Qed.

Lemma bget_hit p dev' blockno' s id members b bf :
  shard_of blockno' = Some id →
  buckets s !! id = Some members →
  find_cached (bufs s) members dev' blockno' = Some b →
  bufs s !! b = Some bf →
  bget p dev' blockno' s =
    (acquiresleep p b;; ret b)%bio
      (State (<[b := set_refcnt (wrap32 (refcnt bf + 1)) bf]> (bufs s))
         (buckets s) (ticks s) (disk s)
         (trace s ++ [EvAcquire id; EvRelease id])).
Proof.
  unfold shard_of. intros Hid Hm Hf Hb. unfold bget.
  run. rewrite Hid. run. rewrite Hm. run. rewrite Hf. run. rewrite Hb. run.
  by rewrite <-app_assoc.
Qed.

Lemma bget_local p dev' blockno' s id members v bf :
  shard_of blockno' = Some id →
  buckets s !! id = Some members →
  find_cached (bufs s) members dev' blockno' = None →
  (scan_victim (bufs s) members (ticks s) None).2 = Some v →
  bufs s !! v = Some bf →
  bget p dev' blockno' s =
    (acquiresleep p v;; ret v)%bio
      (State (<[v := reinit dev' blockno' bf]> (bufs s))
         (buckets s) (ticks s) (disk s)
         (trace s ++ [EvAcquire id; EvRelease id])).
Proof.
  unfold shard_of. intros Hid Hm Hf Hv Hb. unfold bget.
  run. rewrite Hid. run. rewrite Hm. run. rewrite Hf. run. rewrite Hv. run.
  rewrite Hb. run. by rewrite <-app_assoc.
Qed.

Lemma bget_steal p dev' blockno' s id members :
  shard_of blockno' = Some id →
  buckets s !! id = Some members →
  find_cached (bufs s) members dev' blockno' = None →
  (scan_victim (bufs s) members (ticks s) None).2 = None →
  bget p dev' blockno' s =
    steal p id dev' blockno' (seq 0 NBUCKET)
      (State (bufs s) (buckets s) (ticks s) (disk s)
         (trace s ++ [EvAcquire id])).
Proof.
  unfold shard_of. intros Hid Hm Hf Hv. unfold bget.
  run. rewrite Hid. run. rewrite Hm. run. rewrite Hf. run. by rewrite Hv.
Qed.

(** *** The loop under [steal] *)

Lemma steal_nil p id dev' blockno' s :
  steal p id dev' blockno' [] s =
    Panic "bget: no buf"
      (State (bufs s) (buckets s) (ticks s) (disk s)
         (trace s ++ [EvRelease id])).
Proof. done. Qed.

Lemma steal_self p id dev' blockno' rest s :
  steal p id dev' blockno' (id :: rest) s = steal p id dev' blockno' rest s.
Proof. simpl. by rewrite decide_True. Qed.

Lemma steal_oob p id dev' blockno' i rest s :
  i ≠ id → buckets s !! i = None →
  steal p id dev' blockno' (i :: rest) s = Fault.
Proof. intros Hi Hm. simpl. rewrite decide_False by done. run. by rewrite Hm. Qed.

Lemma steal_skip p id dev' blockno' i rest s members :
  i ≠ id →
  buckets s !! i = Some members →
  (scan_victim (bufs s) members (ticks s) None).2 = None →
  steal p id dev' blockno' (i :: rest) s =
    steal p id dev' blockno' rest
      (State (bufs s) (buckets s) (ticks s) (disk s)
         (trace s ++ [EvAcquire i; EvRelease i])).
Proof.
  intros Hi Hm Hv. simpl. rewrite decide_False by done.
  run. rewrite Hm. run. rewrite Hv. run. by rewrite <-app_assoc.
Qed.

Lemma steal_take p id dev' blockno' i rest s members v bf :
  i ≠ id →
  buckets s !! i = Some members →
  (scan_victim (bufs s) members (ticks s) None).2 = Some v →
  bufs s !! v = Some bf →
  steal p id dev' blockno' (i :: rest) s =
    match buckets s !! id with
    | None => Fault
    | Some target =>
      (acquiresleep p v;; ret v)%bio
        (State (<[v := reinit dev' blockno' bf]> (bufs s))
           (<[id := v :: target]> (<[i := unlink v members]> (buckets s)))
           (ticks s) (disk s)
           (trace s ++ [EvAcquire i; EvDetach i v; EvRelease i;
                        EvAttach id v; EvRelease id]))
    end.
Proof.
  intros Hi Hm Hv Hb. simpl. rewrite decide_False by done.
  run. rewrite Hm. run. rewrite Hv. run. rewrite Hb. run. rewrite Hm. run.
  rewrite Hm. run. rewrite list_lookup_insert_ne by done.
  destruct (buckets s !! id) as [target|] eqn:Ht; [|done].
  run. rewrite list_lookup_insert_ne, Ht by done. run.
  by rewrite <-!app_assoc.
Qed.

Lemma lock_tail p b s bf :
  bufs s !! b = Some bf →
  (acquiresleep p b;; ret b)%bio s =
    match lock bf with
    | None =>
      Ret b (State (<[b := set_lock (Some p) bf]> (bufs s)) (buckets s)
               (ticks s) (disk s) (trace s ++ [EvAcquireSleep b]))
    | Some _ => Sleep b s
    end.
Proof.
  intros Hb. run. rewrite Hb. destruct (lock bf); [done|]. run. by rewrite Hb.
Qed.

Lemma steal_cases p id dev' blockno' others s :
  steal_outcome p id dev' blockno' others s (steal p id dev' blockno' others s).
Proof.
  revert s. induction others as [|i rest IH]; intros s.
  - rewrite steal_nil. apply (steal_none _ _ _ _ _ _ []); [done|].
    intros ? []%elem_of_nil.
  - destruct (decide (i = id)) as [->|Hi].
    { rewrite steal_self. destruct (IH s) as [j Hj Hnone|skipped Hsk Hno|skipped j v members target bf].
      - apply (steal_fault _ _ _ _ _ _ j); [by right|done].
      - apply steal_none; [|done]. by rewrite filter_cons_False by naive_solver.
      - eapply steal_some; [done|by right|done..]. }
    destruct (buckets s !! i) as [members|] eqn:Hm;
      [|rewrite steal_oob by done; apply (steal_fault _ _ _ _ _ _ i); [right; left|done]].
    destruct (scan_victim (bufs s) members (ticks s) None).2 as [v|] eqn:Hv.
    + destruct (scan_victim_Some _ _ _ _ Hv) as (bf & _ & Hbf & _).
      rewrite (steal_take _ _ _ _ _ _ _ _ _ _ Hi Hm Hv Hbf).
      destruct (buckets s !! id) as [target|] eqn:Ht;
        [|apply (steal_fault _ _ _ _ _ _ id); [left|done]].
      eapply (steal_some _ _ _ _ _ _ []); [done|by left|by intros ?%elem_of_nil|done..].
    + rewrite (steal_skip _ _ _ _ _ _ _ _ Hi Hm Hv).
      set (s1 := State _ _ _ _ _).
      destruct (IH s1) as [j Hj Hnone|skipped Hsk Hno|skipped j v members' target bf Hj Hin Hnid Hmj Ht Hvj Hbf];
        subst s1; simpl in *.
      * apply (steal_fault _ _ _ _ _ _ j); [|done].
        apply elem_of_cons in Hj as [->|Hj]; [left|right; by right].
      * replace ((trace s ++ [EvAcquire i; EvRelease i]) ++ skip_events skipped ++ [EvRelease id])
          with (trace s ++ skip_events (i :: skipped) ++ [EvRelease id])
          by (by rewrite <-app_assoc).
        apply steal_none; [by rewrite filter_cons_True, Hsk by done|].
        intros j [->|Hj]%elem_of_cons; [|by eauto].
        exists members. split; [done|]. by apply scan_victim_None.
      * replace ((trace s ++ [EvAcquire i; EvRelease i]) ++ skip_events skipped
                   ++ [EvAcquire j; EvDetach j v; EvRelease j; EvAttach id v;
                       EvRelease id])
          with (trace s ++ skip_events (i :: skipped)
                   ++ [EvAcquire j; EvDetach j v; EvRelease j; EvAttach id v;
                       EvRelease id])
          by (by rewrite <-app_assoc).
        eapply steal_some; [done|by right| |done..].
        intros [->|?]%elem_of_cons; done.
Qed.

Lemma bget_cases p dev' blockno' s :
  bget_outcome p dev' blockno' s (bget p dev' blockno' s).
Proof.
  destruct (shard_of blockno') as [id|] eqn:Hid; last first.
  { unfold bget. unfold shard_of in Hid. run. rewrite Hid.
    constructor. by left. }
  destruct (buckets s !! id) as [members|] eqn:Hm; last first.
  { unfold bget. unfold shard_of in Hid. run. rewrite Hid. run.
    rewrite Hm. constructor. right. exists id. split; [|done].
    by eapply bucket_index_lt. }
  destruct (find_cached (bufs s) members dev' blockno') as [b|] eqn:Hf.
  { destruct (find_cached_Some _ _ _ _ _ Hf) as (bf & Hbf & _).
    rewrite (bget_hit _ _ _ _ _ _ _ _ Hid Hm Hf Hbf). by eapply bget_is_hit. }
  destruct (scan_victim (bufs s) members (ticks s) None).2 as [v|] eqn:Hv.
  { destruct (scan_victim_Some _ _ _ _ Hv) as (bf & _ & Hbf & _).
    rewrite (bget_local _ _ _ _ _ _ _ _ Hid Hm Hf Hv Hbf). by eapply bget_is_local. }
  rewrite (bget_steal _ _ _ _ _ _ Hid Hm Hf Hv).
  eapply bget_is_steal; [done..|]. apply steal_cases.
Qed.

Lemma find_cached_app bs before b after bf dev' blockno' :
  bs !! b = Some bf → dev bf = dev' → blockno bf = blockno' →
  (∀ x bfx, x ∈ before → bs !! x = Some bfx →
     ¬ (dev bfx = dev' ∧ blockno bfx = blockno')) →
  find_cached bs (before ++ b :: after) dev' blockno' = Some b.
Proof.
  intros Hb Hd Hn. induction before as [|x before IH]; intros Hno; simpl.
  - rewrite Hb. by assert ((dev bf =? dev') && (blockno bf =? blockno') = true) as -> by lia.
  - destruct (bs !! x) as [bfx|] eqn:Hx.
    + destruct ((dev bfx =? dev') && (blockno bfx =? blockno')) eqn:Hid.
      * destruct (Hno x bfx); [left|done|lia].
      * apply IH. intros y bfy Hy. apply Hno. by right.
    + apply IH. intros y bfy Hy. apply Hno. by right.
Qed.

Lemma find_cached_miss bs members dev' blockno' :
  (∀ x bf, x ∈ members → bs !! x = Some bf →
     ¬ (dev bf = dev' ∧ blockno bf = blockno')) →
  find_cached bs members dev' blockno' = None.
Proof.
  intros Hno.
  destruct (find_cached bs members dev' blockno') as [b|] eqn:Hf; [|done].
  destruct (find_cached_Some _ _ _ _ _ Hf) as (bf & ? & ? & ? & ?).
  by destruct (Hno b bf).
Qed.

(** ** The hit path *)

(** C2, as amended. On the hit path [bget] hands out the first member of
    the shard, in scan order, whose [dev] and [blockno] are the ones asked
    for. The [valid] flag is not looked at: whatever it is, the reference
    count goes up by one, [valid] stays as it was, and the member is
    returned once its sleep lock is free (the caller sleeps on it
    otherwise). *)
Theorem bget_hit_ignores_valid p dev' blockno' s id before b after bf :
  shard_of blockno' = Some id →
  buckets s !! id = Some (before ++ b :: after) →
  bufs s !! b = Some bf →
  dev bf = dev' ∧ blockno bf = blockno' →
  (∀ x bfx, x ∈ before → bufs s !! x = Some bfx →
     ¬ (dev bfx = dev' ∧ blockno bfx = blockno')) →
  bget p dev' blockno' s =
    match lock bf with
    | None =>
      Ret b (State
        (<[b := Buf (valid bf) (dev bf) (blockno bf) (Some p)
                 (wrap32 (refcnt bf + 1)) (lastuse bf) (data bf)]> (bufs s))
        (buckets s) (ticks s) (disk s)
        (trace s ++ [EvAcquire id; EvRelease id; EvAcquireSleep b]))
    | Some q =>
      Sleep b (State
        (<[b := Buf (valid bf) (dev bf) (blockno bf) (Some q)
                 (wrap32 (refcnt bf + 1)) (lastuse bf) (data bf)]> (bufs s))
        (buckets s) (ticks s) (disk s)
        (trace s ++ [EvAcquire id; EvRelease id]))
    end.
Proof.
  intros Hid Hm Hb [Hd Hn] Hno.
  pose proof (find_cached_app _ _ _ after _ _ _ Hb Hd Hn Hno) as Hf.
  rewrite (bget_hit _ _ _ _ _ _ _ _ Hid Hm Hf Hb).
  assert (b < length (bufs s))%nat as Hlt by by eapply lookup_lt_Some.
  erewrite lock_tail; last by apply list_lookup_insert_eq.
  simpl. destruct (lock bf) as [q|] eqn:Hl.
  - unfold set_refcnt. by rewrite Hl.
  - simpl. rewrite list_insert_insert_eq, <-app_assoc.
    unfold set_lock, set_refcnt. simpl. done.
Qed.

(** ** What [bget] does to the buffers *)

Lemma set_lock_same bf : set_lock (lock bf) bf = bf.
Proof. by destruct bf. Qed.

(** The end of [bget], [acquiresleep] and [return], changes the lock of
    the buffer and nothing else. *)
Lemma lock_tail_state p v s1 s' bfv :
  bufs s1 !! v = Some bfv →
  state_of ((acquiresleep p v;; ret v)%bio s1) = Some s' →
  buckets s' = buckets s1 ∧ ticks s' = ticks s1 ∧ disk s' = disk s1 ∧
  (∃ l, bufs s' = <[v := set_lock l bfv]> (bufs s1)) ∧
  (trace s' = trace s1 ∨ trace s' = trace s1 ++ [EvAcquireSleep v]).
Proof.
  intros Hv. rewrite (lock_tail _ _ _ _ Hv).
  destruct (lock bfv) as [q|] eqn:Hl; simpl; intros [= <-]; simpl.
  - split_and!; [done..| |by left]. exists (Some q).
    by rewrite <-Hl, set_lock_same, list_insert_id.
  - split_and!; [done..| |by right]. by exists (Some p).
Qed.

(** Each buffer after [bget]: its lock and reference count may have
    changed, or it had no references and was initialised afresh. *)
Lemma bget_bufs p dev' blockno' s s' :
  state_of (bget p dev' blockno' s) = Some s' →
  ∀ b bf, bufs s !! b = Some bf →
    ∃ bf', bufs s' !! b = Some bf' ∧
      ((∃ l r, bf' = set_lock l (set_refcnt r bf)) ∨
       (refcnt bf = 0 ∧ ∃ l, bf' = set_lock l (reinit dev' blockno' bf))).
Proof.
  assert (∀ bf, ∃ l r, bf = set_lock l (set_refcnt r bf)) as Hsame.
  { intros bf. exists (lock bf), (refcnt bf). by destruct bf. }
  assert (∀ (bs : list buf) v b (bfv bf bf1 : buf) s1 (P : buf → Prop),
    bs !! v = Some bfv → bs !! b = Some bf →
    state_of ((acquiresleep p v;; ret v)%bio (State (<[v := bf1]> bs)
      (buckets s1) (ticks s1) (disk s1) (trace s1))) = Some s' →
    (b = v → bf = bfv → ∀ l, P (set_lock l bf1)) →
    (b ≠ v → P bf) →
    ∃ bf', bufs s' !! b = Some bf' ∧ P bf') as Htail.
  { intros bs v b bfv bf bf1 s1 P Hv Hb Hs Heq Hne.
    assert (v < length bs)%nat as Hlt by by eapply lookup_lt_Some.
    eapply lock_tail_state in Hs; last by apply list_lookup_insert_eq.
    destruct Hs as (_ & _ & _ & [l ->] & _). simpl.
    rewrite list_insert_insert_eq.
    destruct (decide (b = v)) as [->|Hbv].
    - rewrite list_lookup_insert_eq by done. eexists; split; [done|].
      apply Heq; congruence.
    - rewrite list_lookup_insert_ne by done. eauto. }
  intros Hs b bf Hb.
  destruct (bget_cases p dev' blockno' s)
    as [_|id members b0 bf0 Hid Hm Hf Hb0|id members v bfv Hid Hm Hf Hv Hbv
        |id members o Hid Hm Hf Hv Hst].
  - done.
  - eapply (Htail _ _ _ _ _ _ (State (bufs s) (buckets s) (ticks s) (disk s) _));
      [exact Hb0|exact Hb|exact Hs| |].
    + intros -> -> l. left. exists l, (wrap32 (refcnt bf0 + 1)). by destruct bf0.
    + intros _. by left.
  - destruct (scan_victim_Some _ _ _ _ Hv) as (bfv' & _ & Hbv' & Hr & _).
    assert (bfv' = bfv) as -> by congruence.
    eapply (Htail _ _ _ _ _ _ (State (bufs s) (buckets s) (ticks s) (disk s) _));
      [exact Hbv|exact Hb|exact Hs| |].
    + intros -> -> l. right. eauto.
    + intros _. by left.
  - destruct Hst as [? _ _|skipped Hsk Hno|skipped i v mi target bfv Hi Hin Hnid Hmi Ht Hvi Hbv];
      simpl in *.
    + done.
    + injection Hs as <-. simpl. eauto.
    + destruct (scan_victim_Some _ _ _ _ Hvi) as (bfv' & _ & Hbv' & Hr & _).
      assert (bfv' = bfv) as -> by congruence.
      eapply (Htail _ _ _ _ _ _ (State (bufs s) (<[id := v :: target]>
                (<[i := unlink v mi]> (buckets s))) (ticks s) (disk s) _));
        [exact Hbv|exact Hb|exact Hs| |].
      * intros -> -> l. right. eauto.
      * intros _. by left.
Qed.

(** ** Eviction safety *)

(** C5. Whenever a victim loop of [bget] picks a victim, in the own shard
    or in a shard it steals from, the victim has reference count 0; the
    buffer handed out on a miss is such a victim; and a buffer whose
    reference count is not 0 keeps its identity, its [valid] flag, its
    stamp and its payload through any call of [bget]. *)
Theorem bget_eviction_safety p dev' blockno' s s' :
  state_of (bget p dev' blockno' s) = Some s' →
  (∀ members minticks v,
     (scan_victim (bufs s) members minticks None).2 = Some v →
     ∃ bf, bufs s !! v = Some bf ∧ refcnt bf = 0) ∧
  (∀ id members v,
     shard_of blockno' = Some id →
     buckets s !! id = Some members →
     (∀ x bf, x ∈ members → bufs s !! x = Some bf →
        ¬ (dev bf = dev' ∧ blockno bf = blockno')) →
     handed_out (bget p dev' blockno' s) = Some v →
     ∃ bf, bufs s !! v = Some bf ∧ refcnt bf = 0) ∧
  (∀ b bf,
     bufs s !! b = Some bf → refcnt bf ≠ 0 →
     ∃ bf', bufs s' !! b = Some bf' ∧
       dev bf' = dev bf ∧ blockno bf' = blockno bf ∧
       valid bf' = valid bf ∧ lastuse bf' = lastuse bf ∧ data bf' = data bf).
Proof.
  intros Hs. split_and!.
  - intros members minticks v Hv.
    destruct (scan_victim_Some _ _ _ _ Hv) as (bf & _ & ? & ? & _). eauto.
  - intros id members v Hid Hm Hmiss%find_cached_miss.
    assert (∀ w bfw s1, bufs s1 !! w = Some bfw →
      handed_out ((acquiresleep p w;; ret w)%bio s1) = Some v → v = w) as Htail.
    { intros w bfw s1 Hw. rewrite (lock_tail _ _ _ _ Hw).
      destruct (lock bfw); simpl; congruence. }
    destruct (bget_cases p dev' blockno' s)
      as [_|id' members' b0 bf0 Hid' Hm' Hf Hb0|id' members' w bfw Hid' Hm' Hf Hv Hbw
          |id' members' o Hid' Hm' Hf Hv Hst]; [done|..].
    + congruence.
    + intros Hh. apply Htail with (bfw := reinit dev' blockno' bfw) in Hh as ->.
      * destruct (scan_victim_Some _ _ _ _ Hv) as (bf & _ & ? & ? & _). eauto.
      * simpl. apply list_lookup_insert_eq. by eapply lookup_lt_Some.
    + destruct Hst as [? _ _|skipped Hsk Hno|skipped i w mi target bfw Hi Hin Hnid Hmi Ht Hvi Hbw];
        [done..|].
      intros Hh. apply Htail with (bfw := reinit dev' blockno' bfw) in Hh as ->.
      * destruct (scan_victim_Some _ _ _ _ Hvi) as (bf & _ & ? & ? & _). eauto.
      * simpl. apply list_lookup_insert_eq. by eapply lookup_lt_Some.
  - intros b bf Hb Hr.
    destruct (bget_bufs _ _ _ _ _ Hs b bf Hb) as (bf' & Hb' & [(l & r & ->)|[? _]]);
      [|done].
    exists (set_lock l (set_refcnt r bf)). by split.
Qed.

(** ** Capacity *)

Lemma bget_no_buf p dev' blockno' s id members :
  shard_of blockno' = Some id →
  length (buckets s) = NBUCKET →
  buckets s !! id = Some members →
  (∀ x bf, x ∈ members → bufs s !! x = Some bf →
     ¬ (dev bf = dev' ∧ blockno bf = blockno')) →
  (∀ i m x bf, buckets s !! i = Some m → x ∈ m → bufs s !! x = Some bf →
     refcnt bf ≠ 0) →
  bget p dev' blockno' s =
    Panic "bget: no buf"
      (State (bufs s) (buckets s) (ticks s) (disk s)
         (trace s ++ [EvAcquire id]
            ++ skip_events (filter (λ i, i ≠ id) (seq 0 NBUCKET))
            ++ [EvRelease id])).
Proof.
  intros Hid Hlen Hm Hmiss%find_cached_miss Hbusy.
  assert (∀ i m v, buckets s !! i = Some m →
    (scan_victim (bufs s) m (ticks s) None).2 = Some v → False) as Hnov.
  { intros i m v Hi Hv.
    destruct (scan_victim_Some _ _ _ _ Hv) as (bf & Hin & Hbf & Hr & _).
    by eapply Hbusy. }
  destruct (bget_cases p dev' blockno' s)
    as [[?|(i & Hi & Hnone)]|id' members' b0 bf0 Hid' Hm' Hf Hb0
        |id' members' w bfw Hid' Hm' Hf Hv Hbw
        |id' members' o Hid' Hm' Hf Hv Hst].
  - congruence.
  - apply lookup_ge_None in Hnone. lia.
  - congruence.
  - destruct (Hnov _ _ _ Hm' Hv).
  - assert (id' = id) as -> by congruence.
    destruct Hst as [i Hi Hnone|skipped Hsk Hno
                     |skipped i w mi target bfw Hi Hin Hnid Hmi Ht Hvi Hbw];
      simpl in *.
    + apply lookup_ge_None in Hnone.
      apply elem_of_cons in Hi as [->|Hi].
      * apply bucket_index_lt in Hid. lia.
      * apply elem_of_seq in Hi. lia.
    + by rewrite Hsk, <-app_assoc.
    + destruct (Hnov _ _ _ Hmi Hvi).
Qed.

(** ** Shard locks *)

Lemma along_prefix Q evs held :
  along Q held evs →
  ∀ pre e, (pre ++ [e]) `prefix_of` evs → Q (fold_left lock_step pre held) e.
Proof.
  revert held. induction evs as [|a evs IH]; intros held Hal pre e Hpre.
  - apply prefix_nil_inv in Hpre. by destruct pre.
  - destruct Hal as [Ha Hrest]. destruct pre as [|a' pre]; simpl in *.
    + by rewrite (prefix_cons_inv_1 _ _ _ _ Hpre).
    + pose proof (prefix_cons_inv_1 _ _ _ _ Hpre) as ->.
      apply prefix_cons_inv_2 in Hpre. by apply IH.
Qed.

Lemma along_app Q held evs1 evs2 :
  along Q held evs1 →
  along Q (fold_left lock_step evs1 held) evs2 →
  along Q held (evs1 ++ evs2).
Proof.
  revert held. induction evs1 as [|e evs1 IH]; intros held; simpl.
  - by intros _ ?.
  - intros [HQ H1] H2. split; [done|]. by apply IH.
Qed.

Lemma release_top (i id : nat) : i ≠ id → filter (λ j, j ≠ i) [i; id] = [id].
Proof.
  intros Hi. rewrite filter_cons_False by naive_solver.
  rewrite filter_cons_True by naive_solver. done.
Qed.

Lemma release_last (id : nat) : filter (λ j, j ≠ id) [id] = [].
Proof. by rewrite filter_cons_False by naive_solver. Qed.

(** The buckets that are visited and skipped while the lock of [id] is
    held: one more lock at a time, and the lock of [id] alone after each. *)
Lemma skip_events_locks id skipped :
  id ∉ skipped →
  along (lock_rule id) [id] (skip_events skipped) ∧
  fold_left lock_step (skip_events skipped) [id] = [id].
Proof.
  induction skipped as [|i skipped IH]; intros Hnot; [done|].
  apply not_elem_of_cons in Hnot as [Hi Hnot].
  destruct (IH Hnot) as [Ha Hf].
  unfold skip_events in *. simpl. rewrite release_top by done.
  split; [|done]. unfold lock_rule at 1 2. simpl. rewrite release_top by done.
  split_and!; [right; right; by exists i|done|right; by left|done..].
Qed.

(** The bucket a victim is taken from, the move of the victim included. *)
Lemma steal_events_locks id i v :
  i ≠ id →
  along (lock_rule id) [id]
    [EvAcquire i; EvDetach i v; EvRelease i; EvAttach id v] ∧
  fold_left lock_step
    [EvAcquire i; EvDetach i v; EvRelease i; EvAttach id v] [id] = [id].
Proof.
  intros Hi. unfold lock_rule. simpl. rewrite !release_top by done.
  split; [|done].
  split_and!; try done; try (right; by left); right; right; by exists i.
Qed.

(** A lock that is held stays held as long as it is not released. *)
Lemma held_kept id evs held :
  id ∈ held →
  Forall (λ e, e ≠ EvRelease id) evs →
  id ∈ fold_left lock_step evs held.
Proof.
  revert held. induction evs as [|e evs IH]; intros held Hin Hevs; [done|].
  apply Forall_cons in Hevs as [He Hevs]. simpl. apply IH; [|done].
  destruct e as [i|i| | | | |]; simpl; try done.
  - by right.
  - apply list_elem_of_filter. split; [congruence|done].
Qed.

Lemma skip_events_keep id skipped :
  id ∉ skipped → Forall (λ e, e ≠ EvRelease id) (skip_events skipped).
Proof.
  induction skipped as [|i skipped IH]; intros Hnot; [by constructor|].
  apply not_elem_of_cons in Hnot as [Hi Hnot].
  unfold skip_events in *. simpl.
  repeat (constructor; [congruence|]). by apply IH.
Qed.

(** Every trace of [bget] has this shape. *)
Lemma bget_shape_locks id skipped mid rest :
  id ∉ skipped →
  mid = [] ∨
    (∃ i v, i ≠ id ∧
       mid = [EvAcquire i; EvDetach i v; EvRelease i; EvAttach id v]) →
  rest = [] ∨ (∃ v, rest = [EvAcquireSleep v]) →
  let evs :=
    EvAcquire id :: skip_events skipped ++ mid ++ EvRelease id :: rest in
  target_and_one_other id evs ∧ moves_under_locks id evs ∧
  held_after evs = [] ∧ target_held_until_release id evs rest.
Proof.
  intros Hnot Hmid Hrest evs.
  destruct (skip_events_locks id skipped Hnot) as [Ha Hf].
  assert (along (lock_rule id) [id] mid ∧ fold_left lock_step mid [id] = [id])
    as [Hma Hmf].
  { destruct Hmid as [->|(i & v & Hi & ->)]; [done|].
    by apply steal_events_locks. }
  assert (along (lock_rule id) [] evs) as Hal.
  { split; [split; [right; by left|done]|]. simpl.
    apply along_app; [done|]. rewrite Hf.
    apply along_app; [done|]. rewrite Hmf.
    unfold lock_rule. simpl. rewrite release_last.
    destruct Hrest as [->|[v ->]]; simpl; intuition. }
  split_and!.
  - intros pre Hpre. destruct pre as [|e pre _] using rev_ind; [by left|].
    unfold held_after. rewrite fold_left_app. simpl.
    apply (along_prefix _ _ _ Hal _ _ Hpre).
  - intros pre e Hpre. apply (along_prefix _ _ _ Hal _ _ Hpre).
  - unfold held_after, evs. simpl.
    rewrite fold_left_app, Hf, fold_left_app, Hmf. simpl.
    rewrite release_last. by destruct Hrest as [->|[v ->]].
  - exists (skip_events skipped ++ mid). split_and!.
    + unfold evs. by rewrite <-app_assoc.
    + intros pre [k Hk]. unfold held_after. simpl.
      apply held_kept; [by left|].
      assert (Forall (λ e, e ≠ EvRelease id) (skip_events skipped ++ mid))
        as Hall.
      { apply Forall_app. split; [by apply skip_events_keep|].
        destruct Hmid as [->|(i & v & Hi & ->)]; [by constructor|].
        repeat (constructor; [congruence|]). by constructor. }
      rewrite Hk in Hall. by apply Forall_app in Hall as [? _].
    + unfold held_after. simpl.
      rewrite <-app_assoc, fold_left_app, Hf, fold_left_app, Hmf. simpl.
      by rewrite release_last.
Qed.

(** C1, as amended. In any call of [bget] the first thing that happens is
    that the lock of the shard of the block is taken, and that lock is held
    at every instant from there until the call drops it, which is the last
    thing it does before it takes the sleep lock and returns, goes to
    sleep on the sleep lock, or panics: no shard lock is held then. The
    only other shard lock ever held is the lock of the one shard being
    searched for a victim, taken on top of it: at any instant the caller
    holds no shard lock, the lock of the own shard, or that lock and one
    other. A victim is taken out of the other shard with both locks held,
    and put into the own shard with the lock of the own shard alone. *)
Theorem bget_holds_target_and_one_other p dev' blockno' s s' :
  state_of (bget p dev' blockno' s) = Some s' →
  ∃ id evs,
    shard_of blockno' = Some id ∧
    trace s' = trace s ++ evs ∧
    target_and_one_other id evs ∧
    moves_under_locks id evs ∧
    held_after evs = [] ∧
    target_held_until_release id evs
      (after_release (bget p dev' blockno' s)).
Proof.
  intros Hs.
  assert (∀ id skipped mid v bfv s1,
    id ∉ skipped →
    mid = [] ∨
      (∃ i v, i ≠ id ∧
         mid = [EvAcquire i; EvDetach i v; EvRelease i; EvAttach id v]) →
    bufs s1 !! v = Some bfv →
    trace s1 =
      trace s ++ EvAcquire id :: skip_events skipped ++ mid ++ [EvRelease id] →
    state_of ((acquiresleep p v;; ret v)%bio s1) = Some s' →
    ∃ evs, trace s' = trace s ++ evs ∧
      target_and_one_other id evs ∧ moves_under_locks id evs ∧
      held_after evs = [] ∧
      target_held_until_release id evs
        (after_release ((acquiresleep p v;; ret v)%bio s1))) as Htail.
  { intros id skipped mid v bfv s1 Hnot Hmid Hv Htr.
    rewrite (lock_tail _ _ _ _ Hv).
    destruct (lock bfv) as [q|]; simpl; intros [= <-].
    - exists (EvAcquire id :: skip_events skipped ++ mid ++ [EvRelease id]).
      split; [done|]. apply bget_shape_locks; [done..|by left].
    - exists (EvAcquire id :: skip_events skipped ++ mid
                ++ [EvRelease id; EvAcquireSleep v]).
      split.
      + simpl. rewrite Htr, <-app_assoc. simpl. by rewrite <-!app_assoc.
      + apply bget_shape_locks; [done..|right; by exists v]. }
  destruct (bget_cases p dev' blockno' s)
    as [_|id members b0 bf0 Hid Hm Hf Hb0|id members v bfv Hid Hm Hf Hv Hbv
        |id members o Hid Hm Hf Hv Hst]; [done|..].
  - exists id.
    eapply (Htail id [] []) in Hs as (evs & ? & ? & ? & ? & ?);
      [by exists evs|..].
    + by intros ?%elem_of_nil.
    + by left.
    + simpl. apply list_lookup_insert_eq. by eapply lookup_lt_Some.
    + done.
  - exists id.
    eapply (Htail id [] []) in Hs as (evs & ? & ? & ? & ? & ?);
      [by exists evs|..].
    + by intros ?%elem_of_nil.
    + by left.
    + simpl. apply list_lookup_insert_eq. by eapply lookup_lt_Some.
    + done.
  - exists id.
    destruct Hst as [? _ _|skipped Hsk Hno
                     |skipped i v mi target bfv Hi Hin Hnid Hmi Ht Hvi Hbv];
      simpl in *; [done|..].
    + injection Hs as <-. simpl.
      exists (EvAcquire id :: skip_events skipped ++ [] ++ [EvRelease id]).
      split; [done|]. split; [by rewrite <-app_assoc|].
      apply bget_shape_locks; [|by left..].
      rewrite Hsk. intros [Hne _]%list_elem_of_filter. by apply Hne.
    + eapply (Htail id skipped
                [EvAcquire i; EvDetach i v; EvRelease i; EvAttach id v])
        in Hs as (evs & ? & ? & ? & ? & ?); [by exists evs|..].
      * done.
      * right. by exists i, v.
      * simpl. apply list_lookup_insert_eq. by eapply lookup_lt_Some.
      * simpl. by rewrite <-app_assoc.
Qed.

(** [bget] does no disk transfer. *)
Lemma bget_no_disk p dev' blockno' s s' :
  state_of (bget p dev' blockno' s) = Some s' →
  ∃ evs, trace s' = trace s ++ evs ∧ Forall (λ e, is_disk e = false) evs.
Proof.
  intros Hs.
  assert (∀ sk, Forall (λ e, is_disk e = false) (skip_events sk)) as Hsk.
  { induction sk; unfold skip_events; simpl; repeat constructor. done. }
  assert (∀ v bfv s1 evs,
    bufs s1 !! v = Some bfv →
    trace s1 = trace s ++ evs → Forall (λ e, is_disk e = false) evs →
    state_of ((acquiresleep p v;; ret v)%bio s1) = Some s' →
    ∃ evs, trace s' = trace s ++ evs ∧ Forall (λ e, is_disk e = false) evs)
    as Htail.
  { intros v bfv s1 evs Hv Htr Hevs Hs1.
    destruct (lock_tail_state _ _ _ _ _ Hv Hs1) as (_ & _ & _ & _ & [Ht|Ht]).
    - exists evs. split; [congruence|done].
    - exists (evs ++ [EvAcquireSleep v]). split.
      + by rewrite Ht, Htr, <-app_assoc.
      + apply Forall_app. split; [done|by repeat constructor]. }
  destruct (bget_cases p dev' blockno' s)
    as [_|id members b0 bf0 Hid Hm Hf Hb0|id members v bfv Hid Hm Hf Hv Hbv
        |id members o Hid Hm Hf Hv Hst]; [done|..].
  - refine (Htail _ _ _ [EvAcquire id; EvRelease id] _ _ _ Hs); simpl;
      [apply list_lookup_insert_eq; by eapply lookup_lt_Some|done
      |by repeat constructor].
  - refine (Htail _ _ _ [EvAcquire id; EvRelease id] _ _ _ Hs); simpl;
      [apply list_lookup_insert_eq; by eapply lookup_lt_Some|done
      |by repeat constructor].
  - destruct Hst as [? _ _|skipped Hk Hno
                     |skipped i v mi target bfv Hi Hin Hnid Hmi Ht Hvi Hbv];
      simpl in *; [done|..].
    + injection Hs as <-. simpl. eexists. split; [by rewrite <-app_assoc|].
      repeat (apply Forall_app; split); try done; by repeat constructor.
    + refine (Htail _ _ _ _ _ _ _ Hs); simpl.
      * apply list_lookup_insert_eq. by eapply lookup_lt_Some.
      * by rewrite <-app_assoc.
      * repeat (apply Forall_app; split); try done; by repeat constructor.
Qed.

(** ** Reading through *)

(** The rest of [bread] for a caller woken from its sleep on the lock of
    buffer [b]: with the lock still held it goes back to sleep; otherwise
    it takes the lock, [bget] returns, and the buffer is read from the
    disk exactly when it is not [valid]. *)
Lemma wakeup_run p b s bf :
  bufs s !! b = Some bf →
  wakeup p b s =
    match lock bf with
    | Some _ => Sleep b s
    | None =>
      Ret b (State
        (<[b := Buf true (dev bf) (blockno bf) (Some p) (refcnt bf)
                 (lastuse bf)
                 (if valid bf then data bf
                  else disk s (dev bf) (blockno bf))]> (bufs s))
        (buckets s) (ticks s) (disk s)
        (trace s ++ EvAcquireSleep b
           :: if valid bf then [] else [EvDisk b false]))
    end.
Proof.
  intros Hb.
  assert (b < length (bufs s))%nat as Hlt by by eapply lookup_lt_Some.
  unfold wakeup. run. rewrite Hb. destruct (lock bf) as [q|] eqn:Hl; [done|].
  run. rewrite Hb. run. rewrite list_lookup_insert_eq by done. run.
  destruct (valid bf) eqn:Hval; run.
  - do 3 f_equal. destruct bf; simplify_eq/=. done.
  - rewrite list_lookup_insert_eq by done. run.
    rewrite list_lookup_insert_eq by done. run.
    rewrite list_lookup_insert_eq by (by rewrite length_insert). run.
    rewrite !list_insert_insert_eq, <-!app_assoc. done.
Qed.

(** C7. [bread] transfers the block from the disk exactly when the buffer
    that [bget] returns has [valid] false, and sets [valid] afterwards;
    [bget] itself transfers nothing. When the block is cached with [valid]
    true, [bread] returns the buffer with no transfer: the state differs
    from the one before only by the reference count, the sleep lock and the
    lock events of [bget]. When [bget] does not return, neither does
    [bread]. When [bget] has to wait for the sleep lock of the buffer, the
    same holds once the caller is woken with the lock free, in whatever
    state the cache then is: [bget] takes the lock and returns, and
    [bread] transfers the block exactly when [valid] is false at that
    point, sets [valid], and changes nothing else. *)
Theorem bread_reads_iff_invalid p dev' blockno' s :
  (∀ b s1, bget p dev' blockno' s = Ret b s1 →
     ∃ bf evs,
       bufs s1 !! b = Some bf ∧
       trace s1 = trace s ++ evs ∧ Forall (λ e, is_disk e = false) evs ∧
       bread p dev' blockno' s =
         Ret b (if valid bf then s1
                else State
                  (<[b := Buf true (dev bf) (blockno bf) (lock bf) (refcnt bf)
                           (lastuse bf) (disk s1 (dev bf) (blockno bf))]>
                     (bufs s1))
                  (buckets s1) (ticks s1) (disk s1)
                  (trace s1 ++ [EvDisk b false]))) ∧
  (∀ id before b after bf,
     shard_of blockno' = Some id →
     buckets s !! id = Some (before ++ b :: after) →
     bufs s !! b = Some bf →
     dev bf = dev' ∧ blockno bf = blockno' →
     (∀ x bfx, x ∈ before → bufs s !! x = Some bfx →
        ¬ (dev bfx = dev' ∧ blockno bfx = blockno')) →
     valid bf = true → lock bf = None →
     bread p dev' blockno' s =
       Ret b (State
         (<[b := Buf true (dev bf) (blockno bf) (Some p)
                  (wrap32 (refcnt bf + 1)) (lastuse bf) (data bf)]> (bufs s))
         (buckets s) (ticks s) (disk s)
         (trace s ++ [EvAcquire id; EvRelease id; EvAcquireSleep b]))) ∧
  ((∀ b s1, bget p dev' blockno' s ≠ Ret b s1) →
   bread p dev' blockno' s = bget p dev' blockno' s) ∧
  (∀ b s1, bget p dev' blockno' s = Sleep b s1 →
     bread p dev' blockno' s = Sleep b s1 ∧
     (∃ evs, trace s1 = trace s ++ evs ∧
        Forall (λ e, is_disk e = false) evs) ∧
     ∀ s2 bf, bufs s2 !! b = Some bf →
       wakeup p b s2 =
         match lock bf with
         | Some _ => Sleep b s2
         | None =>
           Ret b (State
             (<[b := Buf true (dev bf) (blockno bf) (Some p) (refcnt bf)
                      (lastuse bf)
                      (if valid bf then data bf
                       else disk s2 (dev bf) (blockno bf))]> (bufs s2))
             (buckets s2) (ticks s2) (disk s2)
             (trace s2 ++ EvAcquireSleep b
                :: if valid bf then [] else [EvDisk b false]))
         end).
Proof.
  assert (∀ b s1 bf, bget p dev' blockno' s = Ret b s1 →
    bufs s1 !! b = Some bf →
    bread p dev' blockno' s =
      Ret b (if valid bf then s1
             else State
               (<[b := Buf true (dev bf) (blockno bf) (lock bf) (refcnt bf)
                        (lastuse bf) (disk s1 (dev bf) (blockno bf))]>
                  (bufs s1))
               (buckets s1) (ticks s1) (disk s1)
               (trace s1 ++ [EvDisk b false]))) as Hread.
  { intros b s1 bf Hg Hb. unfold bread. unfold bind at 1. rewrite Hg.
    assert (b < length (bufs s1))%nat as Hlt by by eapply lookup_lt_Some.
    run. rewrite Hb. destruct (valid bf) eqn:Hval; run; [by destruct s1|].
    rewrite Hb. run. rewrite Hb. run.
    rewrite list_lookup_insert_eq by done. run.
    rewrite list_insert_insert_eq. done. }
  split_and!.
  - intros b s1 Hg.
    destruct (bget_no_disk p dev' blockno' s s1) as (evs & Htr & Hevs);
      [by rewrite Hg|].
    assert (is_Some (bufs s1 !! b)) as [bf Hb].
    { pose proof (bget_cases p dev' blockno' s) as Hc. rewrite Hg in Hc.
      assert (∀ v bfv s0, bufs s0 !! v = Some bfv →
        (acquiresleep p v;; ret v)%bio s0 = Ret b s1 → is_Some (bufs s1 !! b))
        as Htail.
      { intros v bfv s0 Hv. rewrite (lock_tail _ _ _ _ Hv).
        destruct (lock bfv); [done|]. intros [= <- <-]. simpl.
        rewrite list_lookup_insert_eq by by eapply lookup_lt_Some. done. }
      inversion Hc as [|id members b0 bf0 Hid Hm Hf Hb0 Ho
                       |id members v bfv Hid Hm Hf Hv Hbv Ho
                       |id members o Hid Hm Hf Hv Hst Ho].
      - eapply Htail; [|exact Ho]. simpl.
        apply list_lookup_insert_eq. by eapply lookup_lt_Some.
      - eapply Htail; [|exact Ho]. simpl.
        apply list_lookup_insert_eq. by eapply lookup_lt_Some.
      - inversion Hst as [| |skipped i v mi target bfv Hi Hin Hnid Hmi Ht Hvi Hbv Ho'].
        eapply Htail; [|exact Ho']. simpl.
        apply list_lookup_insert_eq. by eapply lookup_lt_Some. }
    exists bf, evs. split_and!; [done..|]. by apply Hread.
  - intros id before b after bf Hid Hm Hb Hidn Hno Hval Hl.
    destruct Hidn as [Hd Hn].
    pose proof (find_cached_app _ _ _ after _ _ _ Hb Hd Hn Hno) as Hf.
    pose proof (bget_hit p _ _ _ _ _ _ _ Hid Hm Hf Hb) as Hg.
    erewrite lock_tail in Hg;
      last by (simpl; apply list_lookup_insert_eq; eapply lookup_lt_Some).
    simpl in Hg. rewrite Hl in Hg. simpl in Hg.
    rewrite list_insert_insert_eq, <-app_assoc in Hg. simpl in Hg.
    rewrite (Hread _ _ (Buf (valid bf) (dev bf) (blockno bf) (Some p)
                       (wrap32 (refcnt bf + 1)) (lastuse bf) (data bf)) Hg).
    + simpl. rewrite Hval. unfold set_lock, set_refcnt. simpl. by rewrite Hval.
    + simpl. apply list_lookup_insert_eq. by eapply lookup_lt_Some.
  - intros Hnot. unfold bread. unfold bind at 1.
    destruct (bget p dev' blockno' s) as [b s1| | |] eqn:Hg; [|done..].
    by destruct (Hnot b s1).
  - intros b s1 Hg. split_and!.
    + unfold bread. unfold bind at 1. by rewrite Hg.
    + apply (bget_no_disk p dev' blockno' s s1). by rewrite Hg.
    + intros s2 bf. apply wakeup_run.
Qed.

(** ** Release, pin and unpin *)

Lemma wrap32_small z : 0 ≤ z < 2 ^ 32 → wrap32 z = z.
Proof. intros Hz. unfold wrap32. by apply Z.mod_small. Qed.

(** [brelse] by the holder of the sleep lock, whatever the reference
    count. *)
Lemma brelse_held p b s bf id :
  bufs s !! b = Some bf →
  lock bf = Some p →
  shard_of (blockno bf) = Some id →
  brelse p b s =
    Ret tt (State
      (<[b := Buf (valid bf) (dev bf) (blockno bf) None
               (wrap32 (refcnt bf - 1))
               (if wrap32 (refcnt bf - 1) =? 0 then ticks s else lastuse bf)
               (data bf)]> (bufs s))
      (buckets s) (ticks s) (disk s)
      (trace s ++ [EvReleaseSleep b; EvAcquire id; EvRelease id])).
Proof.
  intros Hb Hl Hid. unfold shard_of in Hid.
  assert (b < length (bufs s))%nat as Hlt by by eapply lookup_lt_Some.
  unfold brelse. run. rewrite Hb. run. rewrite Hl.
  rewrite bool_decide_eq_true_2 by done. run. rewrite Hb. run.
  rewrite list_lookup_insert_eq by done. run. rewrite Hid. run.
  rewrite list_lookup_insert_eq by done. run.
  rewrite list_lookup_insert_eq by (by rewrite length_insert). run.
  destruct (wrap32 (refcnt bf - 1) =? 0); run.
  - rewrite list_lookup_insert_eq by (by rewrite !length_insert). run.
    rewrite !list_insert_insert_eq, <-!app_assoc. done.
  - rewrite !list_insert_insert_eq, <-!app_assoc. done.
Qed.

(** C8. [brelse], called by the process that holds the sleep lock of a
    buffer with a positive reference count, releases the sleep lock first
    and takes the lock of the shard afterwards; it takes one off the
    reference count; it stamps [lastuse] with the current tick when the
    count has come down to 0 and leaves [lastuse] alone otherwise. The
    identity, [valid], the payload, the other buffers and the buckets are
    as before. *)
Theorem brelse_releases p b s bf id :
  bufs s !! b = Some bf →
  lock bf = Some p →
  shard_of (blockno bf) = Some id →
  0 < refcnt bf < 2 ^ 32 →
  brelse p b s =
    Ret tt (State
      (<[b := Buf (valid bf) (dev bf) (blockno bf) None (refcnt bf - 1)
               (if refcnt bf =? 1 then ticks s else lastuse bf) (data bf)]>
         (bufs s))
      (buckets s) (ticks s) (disk s)
      (trace s ++ [EvReleaseSleep b; EvAcquire id; EvRelease id])).
Proof.
  intros Hb Hl Hid Hr. rewrite (brelse_held _ _ _ _ _ Hb Hl Hid).
  rewrite wrap32_small by lia.
  by replace (refcnt bf - 1 =? 0) with (refcnt bf =? 1) by lia.
Qed.

(** C10. [bunpin] takes one off the reference count under the lock of the
    shard and changes nothing else of the buffer: [lastuse] keeps the stamp
    of the last [brelse] that brought the count to 0 (or its initial
    value), also when [bunpin] brings the count to 0, where [brelse] would
    have stamped the current tick. The stamp decides later evictions: of
    two members without references the victim loop takes the one with the
    older stamp, so it takes the unpinned buffer where it would have taken
    the other one had the buffer been released. *)
Theorem bunpin_keeps_lastuse b s bf id :
  bufs s !! b = Some bf →
  shard_of (blockno bf) = Some id →
  0 < refcnt bf < 2 ^ 32 →
  bunpin b s =
    Ret tt (State
      (<[b := Buf (valid bf) (dev bf) (blockno bf) (lock bf) (refcnt bf - 1)
               (lastuse bf) (data bf)]> (bufs s))
      (buckets s) (ticks s) (disk s)
      (trace s ++ [EvAcquire id; EvRelease id])) ∧
  (∀ p, lock bf = Some p → refcnt bf = 1 →
     ∃ s', brelse p b s = Ret tt s' ∧
       lastuse <$> bufs s' !! b = Some (ticks s)) ∧
  (∀ a bfa, a ≠ b → bufs s !! a = Some bfa → refcnt bfa = 0 →
     refcnt bf = 1 → lastuse bf < lastuse bfa < ticks s →
     (scan_victim (<[b := set_refcnt 0 bf]> (bufs s)) [a; b] (ticks s) None).2
       = Some b ∧
     (scan_victim (<[b := set_lastuse (ticks s) (set_refcnt 0 bf)]> (bufs s))
        [a; b] (ticks s) None).2 = Some a).
Proof.
  intros Hb Hid Hr.
  assert (b < length (bufs s))%nat as Hlt by by eapply lookup_lt_Some.
  split_and!.
  - unfold shard_of in Hid.
    unfold bunpin. run. rewrite Hb. run. rewrite Hid. run.
    rewrite Hb. run. rewrite wrap32_small, <-app_assoc by lia. done.
  - intros p Hl H1. eexists. split.
    + by apply brelse_held.
    + simpl. rewrite list_lookup_insert_eq by done. simpl.
      by rewrite H1.
  - intros a bfa Hab Ha Hra H1 Hlast. split; simpl.
    + rewrite list_lookup_insert_ne, Ha by done.
      assert ((refcnt bfa =? 0) && (lastuse bfa <=? ticks s) = true) as -> by lia.
      rewrite list_lookup_insert_eq by done. simpl.
      by assert ((lastuse bf <=? lastuse bfa) = true) as -> by lia.
    + rewrite list_lookup_insert_ne, Ha by done.
      assert ((refcnt bfa =? 0) && (lastuse bfa <=? ticks s) = true) as -> by lia.
      rewrite list_lookup_insert_eq by done. simpl.
      by assert ((ticks s <=? lastuse bfa) = false) as -> by lia.
Qed.

Lemma bpin_run b s bf id :
  bufs s !! b = Some bf →
  shard_of (blockno bf) = Some id →
  bpin b s =
    Ret tt (State
      (<[b := set_refcnt (wrap32 (refcnt bf + 1)) bf]> (bufs s))
      (buckets s) (ticks s) (disk s)
      (trace s ++ [EvAcquire id; EvRelease id])).
Proof.
  intros Hb Hid. unfold shard_of in Hid.
  unfold bpin. run. rewrite Hb. run. rewrite Hid. run.
  rewrite Hb. run. by rewrite <-app_assoc.
Qed.

Lemma bunpin_run b s bf id :
  bufs s !! b = Some bf →
  shard_of (blockno bf) = Some id →
  bunpin b s =
    Ret tt (State
      (<[b := set_refcnt (wrap32 (refcnt bf - 1)) bf]> (bufs s))
      (buckets s) (ticks s) (disk s)
      (trace s ++ [EvAcquire id; EvRelease id])).
Proof.
  intros Hb Hid. unfold shard_of in Hid.
  unfold bunpin. run. rewrite Hb. run. rewrite Hid. run.
  rewrite Hb. run. by rewrite <-app_assoc.
Qed.

(** C3, as amended. [bwrite] and [brelse], called by a process that does
    not hold the sleep lock of the buffer, panic and change nothing. [bpin]
    and [bunpin] make no such check: they never panic, and whoever holds
    the sleep lock, or nobody, they go on to change the reference
    count. *)
Theorem unheld_is_fatal_for_bwrite_brelse_only b s bf :
  bufs s !! b = Some bf →
  (∀ p, lock bf ≠ Some p →
     bwrite p b s = Panic "bwrite" s ∧ brelse p b s = Panic "brelse" s) ∧
  (∀ msg s', bpin b s ≠ Panic msg s' ∧ bunpin b s ≠ Panic msg s') ∧
  (∀ id, shard_of (blockno bf) = Some id →
     bpin b s =
       Ret tt (State
         (<[b := set_refcnt (wrap32 (refcnt bf + 1)) bf]> (bufs s))
         (buckets s) (ticks s) (disk s)
         (trace s ++ [EvAcquire id; EvRelease id])) ∧
     bunpin b s =
       Ret tt (State
         (<[b := set_refcnt (wrap32 (refcnt bf - 1)) bf]> (bufs s))
         (buckets s) (ticks s) (disk s)
         (trace s ++ [EvAcquire id; EvRelease id]))).
Proof.
  intros Hb. split_and!.
  - intros p Hl. split.
    + unfold bwrite. run. rewrite Hb. run.
      rewrite bool_decide_eq_false_2 by done. done.
    + unfold brelse. run. rewrite Hb. run.
      rewrite bool_decide_eq_false_2 by done. done.
  - intros msg s'. split.
    + unfold bpin. run. rewrite Hb. run.
      destruct (bucket_index _); run; [|done]. by rewrite Hb.
    + unfold bunpin. run. rewrite Hb. run.
      destruct (bucket_index _); run; [|done]. by rewrite Hb.
  - intros id Hid. split; [by apply bpin_run|by apply bunpin_run].
Qed.

(** ** Membership of shards *)

Lemma unlink_elem_of v l x : x ∈ unlink v l → x ∈ l.
Proof.
  induction l as [|y l IH]; simpl; [done|].
  destruct (decide (y = v)); [by right|].
  intros [->|?]%elem_of_cons; [left|right; auto].
Qed.

Lemma unlink_other v l x : x ≠ v → x ∈ l → x ∈ unlink v l.
Proof.
  intros Hx. induction l as [|y l IH]; simpl; [done|].
  destruct (decide (y = v)) as [->|].
  - by intros [->|?]%elem_of_cons.
  - intros [->|?]%elem_of_cons; [left|right; auto].
Qed.

Lemma unlink_NoDup v l : NoDup l → NoDup (unlink v l).
Proof.
  induction 1 as [|y l Hy Hl IH]; simpl; [constructor|].
  destruct (decide (y = v)); [done|].
  constructor; [|done]. intros ?%unlink_elem_of. done.
Qed.

Lemma unlink_gone v l : NoDup l → v ∉ unlink v l.
Proof.
  induction 1 as [|y l Hy Hl IH]; simpl; [by intros ?%elem_of_nil|].
  destruct (decide (y = v)) as [->|]; [done|].
  intros [->|?]%elem_of_cons; done.
Qed.

(** Changes of buffers that keep every buffer in its shard, with a stamp
    that is not after the current tick, keep the state well formed. *)
Lemma wf_frame s s' :
  wf s →
  buckets s' = buckets s →
  (∀ b bf, bufs s !! b = Some bf →
     ∃ bf', bufs s' !! b = Some bf' ∧
       shard_of (blockno bf') = shard_of (blockno bf) ∧
       lastuse bf' ≤ ticks s') →
  length (bufs s') = length (bufs s) →
  wf s'.
Proof.
  intros [Hk Hn Hnd Hh Hc Hst] Hbk Hbf Hlen. split.
  - by rewrite Hbk.
  - by rewrite Hlen.
  - intros i m. rewrite Hbk. apply Hnd.
  - intros i m b. rewrite Hbk. intros Hm Hb.
    destruct (Hh i m b Hm Hb) as (bf & Hbf0 & Hs).
    destruct (Hbf b bf Hbf0) as (bf' & ? & Hs' & _).
    exists bf'. split; [done|]. by rewrite Hs'.
  - intros b. rewrite Hlen, Hbk. apply Hc.
  - intros b bf' Hb'.
    assert (is_Some (bufs s !! b)) as [bf Hb].
    { apply lookup_lt_is_Some. rewrite <-Hlen. by eapply lookup_lt_Some. }
    destruct (Hbf b bf Hb) as (bf'' & ? & _ & ?). congruence.
Qed.

Lemma wf_insert s b bf bf' d tr :
  wf s →
  bufs s !! b = Some bf →
  shard_of (blockno bf') = shard_of (blockno bf) →
  lastuse bf' = lastuse bf →
  wf (State (<[b := bf']> (bufs s)) (buckets s) (ticks s) d tr).
Proof.
  intros Hwf Hb Hs Hl. eapply wf_frame; [done|done| |]; simpl.
  - intros x bfx Hx. destruct (decide (x = b)) as [->|Hne].
    + rewrite list_lookup_insert_eq by by eapply lookup_lt_Some.
      exists bf'. split_and!; [done|congruence|].
      rewrite Hl. by eapply wf_stamps.
    + rewrite list_lookup_insert_ne by done.
      exists bfx. split_and!; [done..|]. by eapply wf_stamps.
  - apply length_insert.
Qed.

(** Moving a victim from the shard [i] to the shard [id] of its new block
    number. *)
Lemma wf_steal s id i v mi target bf dev' blockno' d tr :
  wf s →
  i ≠ id →
  buckets s !! i = Some mi →
  buckets s !! id = Some target →
  v ∈ mi →
  bufs s !! v = Some bf →
  shard_of blockno' = Some id →
  wf (State (<[v := reinit dev' blockno' bf]> (bufs s))
        (<[id := v :: target]> (<[i := unlink v mi]> (buckets s)))
        (ticks s) d tr).
Proof.
  intros [Hk Hn Hnd Hh Hc Hst] Hi Hmi Ht Hv Hbf Hid.
  assert (v < length (bufs s))%nat as Hvlt by by eapply lookup_lt_Some.
  assert (i < length (buckets s))%nat as Hilt by by eapply lookup_lt_Some.
  assert (id < length (buckets s))%nat as Hidlt by by eapply lookup_lt_Some.
  assert (∀ j m, buckets s !! j = Some m → v ∈ m → j = i) as Hown.
  { intros j m Hm Hin.
    destruct (Hh i mi v Hmi Hv) as (bf1 & Hb1 & Hs1).
    destruct (Hh j m v Hm Hin) as (bf2 & Hb2 & Hs2). congruence. }
  assert (∀ j m,
    <[id := v :: target]> (<[i := unlink v mi]> (buckets s)) !! j = Some m →
    (j = id ∧ m = v :: target) ∨ (j = i ∧ m = unlink v mi) ∨
    (j ≠ id ∧ j ≠ i ∧ buckets s !! j = Some m)) as Hcases.
  { intros j m. destruct (decide (j = id)) as [->|Hjid].
    - rewrite list_lookup_insert_eq by by rewrite length_insert.
      intros [= <-]. by left.
    - rewrite list_lookup_insert_ne by done.
      destruct (decide (j = i)) as [->|Hji].
      + rewrite list_lookup_insert_eq by done. intros [= <-]. right. by left.
      + rewrite list_lookup_insert_ne by done. intros ?. right. by right. }
  split; simpl.
  - by rewrite !length_insert.
  - by rewrite length_insert.
  - intros j m [[-> ->]|[[-> ->]|(_ & _ & Hm)]]%Hcases.
    + constructor; [|by eapply Hnd]. intros Hin. by apply Hi, eq_sym, (Hown id target).
    + apply unlink_NoDup. by eapply Hnd.
    + by eapply Hnd.
  - intros j m b [[-> ->]|[[-> ->]|(Hjid & Hji & Hm)]]%Hcases Hb.
    + apply elem_of_cons in Hb as [->|Hb].
      * rewrite list_lookup_insert_eq by done. by exists (reinit dev' blockno' bf).
      * rewrite list_lookup_insert_ne; [by eapply Hh|].
        intros <-. by apply Hi, eq_sym, (Hown id target).
    + rewrite list_lookup_insert_ne.
      * eapply Hh; [done|]. by eapply unlink_elem_of.
      * intros <-. eapply (unlink_gone v mi); [by eapply Hnd|done].
    + rewrite list_lookup_insert_ne; [by eapply Hh|].
      intros <-. by apply Hji, (Hown j m).
  - intros b. rewrite length_insert. intros Hb.
    destruct (decide (b = v)) as [->|Hbv].
    { exists id, (v :: target). split; [|left].
      apply list_lookup_insert_eq. by rewrite length_insert. }
    destruct (Hc b Hb) as (j & m & Hm & Hin).
    destruct (decide (j = id)) as [->|Hjid].
    { exists id, (v :: target). split.
      - apply list_lookup_insert_eq. by rewrite length_insert.
      - right. congruence. }
    destruct (decide (j = i)) as [->|Hji].
    { exists i, (unlink v mi). split.
      - rewrite list_lookup_insert_ne by done. by apply list_lookup_insert_eq.
      - apply unlink_other; [done|congruence]. }
    exists j, m. split; [|done].
    by rewrite !list_lookup_insert_ne by done.
  - intros b bfb. destruct (decide (b = v)) as [->|Hbv].
    + rewrite list_lookup_insert_eq by done. intros [= <-]. simpl.
      by eapply Hst.
    + rewrite list_lookup_insert_ne by done. apply Hst.
Qed.

Lemma lock_tail_handed p w s1 s' bfw v :
  bufs s1 !! w = Some bfw →
  state_of ((acquiresleep p w;; ret w)%bio s1) = Some s' →
  handed_out ((acquiresleep p w;; ret w)%bio s1) = Some v →
  v = w ∧ ∃ l, bufs s' !! v = Some (set_lock l bfw).
Proof.
  intros Hw. rewrite (lock_tail _ _ _ _ Hw).
  destruct (lock bfw) as [q|] eqn:Hl; simpl; intros [= <-] [= <-].
  - split; [done|]. exists (Some q). by rewrite <-Hl, set_lock_same.
  - split; [done|]. exists (Some p). simpl.
    apply list_lookup_insert_eq. by eapply lookup_lt_Some.
Qed.

(** The buffer that [bget] hands out has the identity asked for. *)
Lemma bget_handed_out p dev' blockno' s s' v :
  state_of (bget p dev' blockno' s) = Some s' →
  handed_out (bget p dev' blockno' s) = Some v →
  ∃ bf, bufs s' !! v = Some bf ∧ dev bf = dev' ∧ blockno bf = blockno'.
Proof.
  destruct (bget_cases p dev' blockno' s)
    as [_|id members b0 bf0 Hid Hm Hf Hb0|id members w bfw Hid Hm Hf Hv Hbw
        |id members o Hid Hm Hf Hv Hst]; [done|..].
  - intros Hs Hh.
    destruct (find_cached_Some _ _ _ _ _ Hf) as (bf & Hbf & Hd & Hn & _).
    assert (bf = bf0) as -> by congruence.
    eapply lock_tail_handed in Hh as [-> [l Hl]]; [| |exact Hs].
    + by exists (set_lock l (set_refcnt (wrap32 (refcnt bf0 + 1)) bf0)).
    + simpl. apply list_lookup_insert_eq. by eapply lookup_lt_Some.
  - intros Hs Hh.
    eapply lock_tail_handed in Hh as [-> [l Hl]]; [| |exact Hs].
    + by exists (set_lock l (reinit dev' blockno' bfw)).
    + simpl. apply list_lookup_insert_eq. by eapply lookup_lt_Some.
  - destruct Hst as [? _ _|skipped Hsk Hno
                     |skipped i w mi target bfw Hi Hin Hnid Hmi Ht Hvi Hbw];
      [done..|].
    intros Hs Hh.
    eapply lock_tail_handed in Hh as [-> [l Hl]]; [| |exact Hs].
    + by exists (set_lock l (reinit dev' blockno' bfw)).
    + simpl. apply list_lookup_insert_eq. by eapply lookup_lt_Some.
Qed.

Lemma lock_tail_wf p v s1 s' bfv :
  wf s1 →
  bufs s1 !! v = Some bfv →
  state_of ((acquiresleep p v;; ret v)%bio s1) = Some s' →
  wf s'.
Proof.
  intros Hwf Hv Hs.
  destruct (lock_tail_state _ _ _ _ _ Hv Hs) as (Hbk & Htk & _ & [l Hbufs] & _).
  eapply wf_frame; [done|done| |].
  - intros b bf Hb. rewrite Hbufs, Htk.
    pose proof (wf_stamps _ _ _ Hwf b bf Hb).
    destruct (decide (b = v)) as [->|Hne].
    + rewrite list_lookup_insert_eq by by eapply lookup_lt_Some.
      eexists. split_and!; [done|simpl; congruence|].
      simpl. by replace bfv with bf by congruence.
    + rewrite list_lookup_insert_ne by done. eauto.
  - by rewrite Hbufs, length_insert.
Qed.

(** [bget] keeps the state well formed: in particular the buffer it gives
    a new identity to ends up in the shard of the new block number. *)
Lemma bget_wf p dev' blockno' s s' :
  wf s →
  state_of (bget p dev' blockno' s) = Some s' →
  wf s'.
Proof.
  intros Hwf.
  destruct (bget_cases p dev' blockno' s)
    as [_|id members b0 bf0 Hid Hm Hf Hb0|id members w bfw Hid Hm Hf Hv Hbw
        |id members o Hid Hm Hf Hv Hst]; [done|..].
  - apply lock_tail_wf with (bfv := set_refcnt (wrap32 (refcnt bf0 + 1)) bf0).
    + by eapply wf_insert.
    + simpl. apply list_lookup_insert_eq. by eapply lookup_lt_Some.
  - destruct (scan_victim_Some _ _ _ _ Hv) as (bf & Hin & Hbf & _).
    destruct (wf_hashed _ _ _ Hwf id members w Hm Hin) as (bf' & Hbf' & Hsh).
    apply lock_tail_wf with (bfv := reinit dev' blockno' bfw).
    + eapply (wf_insert _ _ bfw); [done..| |done]. simpl. congruence.
    + simpl. apply list_lookup_insert_eq. by eapply lookup_lt_Some.
  - destruct Hst as [? _ _|skipped Hsk Hno
                     |skipped i w mi target bfw Hi Hin Hnid Hmi Ht Hvi Hbw];
      simpl in *; [done|..].
    + intros [= <-]. eapply wf_frame; [done|done| |done].
      intros b bf Hb. exists bf. split_and!; [done..|]. simpl. by eapply wf_stamps.
    + destruct (scan_victim_Some _ _ _ _ Hvi) as (bf & Hwin & Hbf & _).
      apply lock_tail_wf with (bfv := reinit dev' blockno' bfw).
      * by eapply wf_steal.
      * simpl. apply list_lookup_insert_eq. by eapply lookup_lt_Some.
Qed.

(** *** The operations that move no buffer *)

Lemma same_shards_refl s : same_shards s s.
Proof. split_and!; [done..|]. eauto. Qed.

Lemma same_shards_trans s1 s2 s3 :
  same_shards s1 s2 → same_shards s2 s3 → same_shards s1 s3.
Proof.
  intros (Hb1 & Ht1 & Hl1 & H1) (Hb2 & Ht2 & Hl2 & H2).
  split_and!; [congruence..|].
  intros b bf Hb. destruct (H1 b bf Hb) as (bf' & Hb' & ? & Hs').
  destruct (H2 b bf' Hb') as (bf'' & ? & ? & Hs'').
  exists bf''. split_and!; [done|congruence|].
  rewrite Ht1 in Hs''.
  destruct Hs' as [Hs'|Hs'], Hs'' as [Hs''|Hs'']; [left|right..]; congruence.
Qed.

Lemma same_shards_wf s s' : wf s → same_shards s s' → wf s'.
Proof.
  intros Hwf (Hb & Ht & Hl & Hbufs). eapply wf_frame; [done..| |done].
  intros b bf Hbf. destruct (Hbufs b bf Hbf) as (bf' & ? & Heq & Hs).
  exists bf'. split_and!; [done|by rewrite Heq|].
  rewrite Ht. pose proof (wf_stamps _ _ _ Hwf b bf Hbf).
  destruct Hs as [->| ->]; lia.
Qed.

Lemma frames_ret {A} (a : A) : frames (ret a).
Proof. intros s s' [= <-]. apply same_shards_refl. Qed.

Lemma frames_bind {A B} (m : M A) (f : A → M B) :
  frames m → (∀ a, frames (f a)) → frames (bind m f).
Proof.
  intros Hm Hf s s'. unfold bind.
  destruct (m s) as [a s1|msg s1|b s1|] eqn:Hms; simpl.
  - intros Hs. eapply same_shards_trans; [|by eapply Hf].
    apply Hm. by rewrite Hms.
  - intros [= <-]. apply Hm. by rewrite Hms.
  - intros [= <-]. apply Hm. by rewrite Hms.
  - done.
Qed.

Lemma frames_pure {A} (m : M A) :
  (∀ s, m s = Fault ∨ (∃ a, m s = Ret a s) ∨ (∃ msg, m s = Panic msg s)
        ∨ (∃ b, m s = Sleep b s)) →
  frames m.
Proof.
  intros Hm s s'.
  destruct (Hm s) as [->|[[a ->]|[[msg ->]|[b ->]]]]; simpl; [done|..];
    intros [= <-]; apply same_shards_refl.
Qed.

Lemma frames_emit e : frames (emit e).
Proof. intros s s' [= <-]. split_and!; simpl; [done..|eauto]. Qed.

Lemma frames_modify_buf b f :
  (∀ bf, blockno (f bf) = blockno bf ∧ lastuse (f bf) = lastuse bf) →
  frames (modify_buf b f).
Proof.
  intros Hf s s'. unfold modify_buf.
  destruct (bufs s !! b) as [bf|] eqn:Hb; simpl; [|done].
  intros [= <-]. split_and!; simpl; [done..|apply length_insert|].
  intros x bfx Hx. destruct (decide (x = b)) as [->|Hne].
  - rewrite list_lookup_insert_eq by by eapply lookup_lt_Some.
    destruct (Hf bf) as [Hn Hl].
    exists (f bf). split_and!; [done|congruence|left; congruence].
  - rewrite list_lookup_insert_ne by done. eauto.
Qed.

(** [b->lastuse = ticks] *)
Lemma frames_stamp b :
  frames (t ← get_ticks; modify_buf b (set_lastuse t)).
Proof.
  intros s s'. unfold bind, get_ticks, modify_buf.
  destruct (bufs s !! b) as [bf|] eqn:Hb; simpl; [|done].
  intros [= <-]. split_and!; simpl; [done..|apply length_insert|].
  intros x bfx Hx. destruct (decide (x = b)) as [->|Hne].
  - rewrite list_lookup_insert_eq by by eapply lookup_lt_Some.
    exists (set_lastuse (ticks s) bf). split_and!; [done|simpl; congruence|].
    by right.
  - rewrite list_lookup_insert_ne by done. eauto.
Qed.

Lemma frames_get_buf b : frames (get_buf b).
Proof.
  apply frames_pure. intros s. unfold get_buf.
  destruct (bufs s !! b); eauto.
Qed.

Lemma frames_shard id : frames (shard NBUCKET id).
Proof.
  apply frames_pure. intros s. unfold shard, ret, fault.
  destruct (bucket_index id); eauto.
Qed.

Create HintDb frames discriminated.

Ltac frames_step :=
  first
    [ solve [auto 1 with frames nocore]
    | apply frames_stamp
    | apply frames_bind; [|intros ?]
    | apply frames_ret
    | apply frames_emit
    | apply frames_get_buf
    | apply frames_shard
    | apply frames_modify_buf; by intros []
    | apply frames_pure; intros ?; by eauto 6
    | match goal with
      | |- frames (if ?c then _ else _) => destruct c
      | |- frames (match ?x with _ => _ end) => destruct x
      end ].

Lemma frames_acquiresleep p b : frames (acquiresleep p b).
Proof. unfold acquiresleep. repeat frames_step. Qed.

Lemma frames_virtio_disk_rw b w : frames (virtio_disk_rw b w).
Proof.
  unfold virtio_disk_rw. repeat frames_step.
  intros s s' [= <-]. split_and!; simpl; [done..|eauto].
Qed.

#[local] Hint Resolve frames_acquiresleep frames_virtio_disk_rw : frames.

Lemma frames_bwrite p b : frames (bwrite p b).
Proof. unfold bwrite, holdingsleep. repeat frames_step. Qed.

Lemma frames_brelse p b : frames (brelse p b).
Proof.
  unfold brelse, holdingsleep, releasesleep, acquire, release,
    get_ticks.
  repeat frames_step.
Qed.

Lemma frames_bpin b : frames (bpin b).
Proof. unfold bpin, acquire, release. repeat frames_step. Qed.

Lemma frames_bunpin b : frames (bunpin b).
Proof. unfold bunpin, acquire, release. repeat frames_step. Qed.

Lemma frames_wakeup p b : frames (wakeup p b).
Proof.
  unfold wakeup. repeat frames_step.
Qed.

Lemma bread_wf p dev' blockno' s s' :
  wf s → state_of (bread p dev' blockno' s) = Some s' → wf s'.
Proof.
  intros Hwf. unfold bread. unfold bind at 1.
  destruct (bget p dev' blockno' s) as [b s1|msg s1|b s1|] eqn:Hg; simpl.
  - assert (wf s1) as Hwf1 by (eapply bget_wf; [done|by rewrite Hg]).
    intros Hs. eapply same_shards_wf; [done|].
    revert Hs. generalize s1 s'. change (frames (
      bf ← get_buf b;
      (if negb (valid bf)
       then virtio_disk_rw b false;; modify_buf b (set_valid true)
       else ret tt);;
      ret b)%bio).
    repeat frames_step.
  - intros [= <-]. eapply bget_wf; [done|by rewrite Hg].
  - intros [= <-]. eapply bget_wf; [done|by rewrite Hg].
  - done.
Qed.

Lemma step_wf s s' : wf s → step s s' → wf s'.
Proof.
  intros Hwf Hstep.
  destruct Hstep as [t Ht|p dev' blockno' s' Hs|p b s' Hs|p b s' Hs|p b s' Hs
                     |b s' Hs|b s' Hs].
  - eapply wf_frame; [done|done| |done].
    intros b bf Hb. exists bf. split_and!; [done..|]. simpl.
    pose proof (wf_stamps _ _ _ Hwf b bf Hb). lia.
  - by eapply bread_wf.
  - eapply same_shards_wf; [done|]. by eapply frames_wakeup.
  - eapply same_shards_wf; [done|]. by eapply frames_bwrite.
  - eapply same_shards_wf; [done|]. by eapply frames_brelse.
  - eapply same_shards_wf; [done|]. by eapply frames_bpin.
  - eapply same_shards_wf; [done|]. by eapply frames_bunpin.
Qed.

(** *** The state after [binit] *)

Lemma for_each_initlock xs s : for_each xs initlock s = Ret tt s.
Proof. induction xs as [|x xs IH]; simpl; [done|]. unfold bind. simpl. apply IH. Qed.

Lemma for_each_clear xs s :
  (∀ i, i ∈ xs → buckets s !! i = Some []) →
  for_each xs (λ i, put_bucket i []) s = Ret tt s.
Proof.
  induction xs as [|x xs IH]; intros Hxs; simpl; [done|].
  unfold bind, put_bucket. rewrite Hxs by left.
  rewrite list_insert_id by (apply Hxs; left).
  replace (set_buckets (buckets s) s) with s by by destruct s.
  apply IH. intros i Hi. apply Hxs. by right.
Qed.

Lemma for_each_link n k tl d :
  (k + n ≤ NBUF)%nat →
  for_each (seq k n) (λ b,
      members ← get_bucket 0;
      initsleeplock b;;
      put_bucket 0 (b :: members))%bio
    (State (replicate NBUF (zero_buf BSIZE)) (rev (seq 0 k) :: tl) 0 d []) =
  Ret tt
    (State (replicate NBUF (zero_buf BSIZE)) (rev (seq 0 (k + n)) :: tl) 0 d []).
Proof.
  revert k. induction n as [|n IH]; intros k Hk; simpl.
  - by rewrite Nat.add_0_r.
  - unfold bind at 1. unfold bind at 1. unfold get_bucket at 1. simpl.
    unfold bind at 1. unfold initsleeplock, modify_buf. simpl.
    rewrite lookup_replicate_2 by lia.
    rewrite list_insert_id by (apply lookup_replicate_2; lia).
    unfold put_bucket, set_buckets, set_bufs. simpl.
    replace (k :: rev (seq 0 k)) with (rev (seq 0 (S k)))
      by (by rewrite seq_S, rev_unit).
    rewrite IH by lia. by replace (S k + n)%nat with (k + S n)%nat by lia.
Qed.

Lemma binit_boot d :
  (0 < NBUCKET)%nat →
  binit (boot d) =
    Ret tt (State (replicate NBUF (zero_buf BSIZE))
              (rev (seq 0 NBUF) :: replicate (NBUCKET - 1) []) 0 d []).
Proof.
  intros Hk. unfold binit, boot.
  unfold bind at 1. rewrite for_each_initlock.
  unfold bind at 1. rewrite for_each_clear; last first.
  { intros i Hi%elem_of_seq. simpl. apply lookup_replicate_2. lia. }
  replace (replicate NBUCKET ([] : list nat))
    with (rev (seq 0 0) :: replicate (NBUCKET - 1) [])
    by (destruct NBUCKET; [lia|]; simpl; by rewrite Nat.sub_0_r).
  by rewrite for_each_link by lia.
Qed.

Lemma shard_of_0 : (0 < NBUCKET)%nat → shard_of 0 = Some 0%nat.
Proof. intros Hk. by rewrite shard_of_small by (done || lia). Qed.

Lemma binit_wf d s : binit (boot d) = Ret tt s → wf s.
Proof.
  destruct (decide (0 < NBUCKET)%nat) as [Hk|Hk].
  - rewrite binit_boot by done. intros [= <-]. split; simpl.
    + rewrite length_replicate. lia.
    + apply length_replicate.
    + intros [|i] m; simpl.
      * intros [= <-]. apply NoDup_ListNoDup, NoDup_rev, NoDup_ListNoDup, NoDup_seq.
      * intros [-> _]%lookup_replicate. constructor.
    + intros [|i] m b; simpl.
      * intros [= <-] Hb%list_elem_of_In%in_rev%list_elem_of_In%elem_of_seq.
        exists (zero_buf BSIZE). split; [apply lookup_replicate_2; lia|].
        by apply shard_of_0.
      * intros [-> _]%lookup_replicate []%elem_of_nil.
    + intros b. rewrite length_replicate. intros Hb.
      exists 0%nat, (rev (seq 0 NBUF)). split; [done|].
      apply list_elem_of_In, in_rev. rewrite rev_involutive.
      apply list_elem_of_In, elem_of_seq. lia.
    + by intros b bf [-> _]%lookup_replicate.
  - assert (NBUCKET = 0)%nat as Hz by lia.
    unfold binit, boot. rewrite Hz. simpl.
    unfold bind at 1. simpl. unfold bind at 1. simpl.
    destruct NBUF as [|n] eqn:Hn; simpl.
    + intros [= <-]. split; simpl; try done. intros b. lia.
    + done.
Qed.

Lemma reachable_wf s : reachable s → wf s.
Proof.
  induction 1 as [d s Hinit|s s' _ IH Hstep].
  - by eapply binit_wf.
  - by eapply step_wf.
Qed.

(** ** Eviction from the own shard *)


(** ** Buffers and their shards *)

(** The shard of a block number that is negative as an [int]: shard 0 when
    [NBUCKET] divides it, and none otherwise. *)
Lemma shard_of_large blockno :
  2 ^ 31 ≤ blockno < 2 ^ 32 → (0 < NBUCKET)%nat →
  shard_of blockno =
    if Z.rem (blockno - 2 ^ 32) (Z.of_nat NBUCKET) =? 0
    then Some 0%nat else None.
Proof.
  intros Hb Hk. unfold shard_of, bucket_index, myhash, to_int.
  assert ((blockno <? 2 ^ 31) = false) as -> by lia.
  pose proof (Z.rem_nonpos (blockno - 2 ^ 32) (Z.of_nat NBUCKET)
                ltac:(lia) ltac:(lia)) as Hle.
  destruct (Z.rem (blockno - 2 ^ 32) (Z.of_nat NBUCKET) =? 0) eqn:Hz.
  - apply Z.eqb_eq in Hz. rewrite Hz.
    assert ((0 <=? 0) && (0 <? Z.of_nat NBUCKET) = true) as -> by lia. done.
  - apply Z.eqb_neq in Hz.
    assert ((0 <=? Z.rem (blockno - 2 ^ 32) (Z.of_nat NBUCKET)) = false)
      as -> by lia.
    done.
Qed.

(** C9, as amended. The shard of a block number is the remainder, as C
    computes it, of the number as an [int] by [NBUCKET]: for a block
    number below 2^31 that is the number modulo [NBUCKET]; a block number
    of 2^31 or more has shard 0 when [NBUCKET] divides its value as an
    [int], whatever the number modulo [NBUCKET] is, and no shard
    otherwise. In every state that the cache can reach from [binit], every
    member of a bucket has a block number whose shard is the index of the
    bucket, and every buffer is a member of the bucket of its block number.
    The buffer handed out by [bget], through either eviction path, carries
    the block number asked for and is a member of the bucket of that
    number. So [brelse], [bpin] and [bunpin], which hash the block number
    of the buffer again, take and drop the lock of the shard the buffer is
    a member of. *)
Theorem slot_in_shard_of_its_blockno s :
  reachable s →
  (∀ blockno', 0 ≤ blockno' < 2 ^ 31 → (0 < NBUCKET)%nat →
     shard_of blockno' = Some (Z.to_nat (blockno' mod Z.of_nat NBUCKET))) ∧
  (∀ blockno', 2 ^ 31 ≤ blockno' < 2 ^ 32 → (0 < NBUCKET)%nat →
     shard_of blockno' =
       if Z.rem (blockno' - 2 ^ 32) (Z.of_nat NBUCKET) =? 0
       then Some 0%nat else None) ∧
  (∀ i m b bf,
     buckets s !! i = Some m → b ∈ m → bufs s !! b = Some bf →
     shard_of (blockno bf) = Some i) ∧
  (∀ p dev' blockno' s' v,
     state_of (bget p dev' blockno' s) = Some s' →
     handed_out (bget p dev' blockno' s) = Some v →
     ∃ id m bf,
       shard_of blockno' = Some id ∧ buckets s' !! id = Some m ∧ v ∈ m ∧
       bufs s' !! v = Some bf ∧ blockno bf = blockno') ∧
  (∀ b bf,
     bufs s !! b = Some bf →
     ∃ id m,
       shard_of (blockno bf) = Some id ∧ buckets s !! id = Some m ∧ b ∈ m ∧
       (∃ s', bpin b s = Ret tt s' ∧
          trace s' = trace s ++ [EvAcquire id; EvRelease id]) ∧
       (∃ s', bunpin b s = Ret tt s' ∧
          trace s' = trace s ++ [EvAcquire id; EvRelease id]) ∧
       (∀ p, lock bf = Some p →
          ∃ s', brelse p b s = Ret tt s' ∧
            trace s' =
              trace s ++ [EvReleaseSleep b; EvAcquire id; EvRelease id])).
Proof.
  intros Hwf%reachable_wf.
  assert (∀ s, wf s → ∀ b bf, bufs s !! b = Some bf →
    ∃ id m, shard_of (blockno bf) = Some id ∧ buckets s !! id = Some m ∧ b ∈ m)
    as Hplace.
  { intros s0 Hwf0 b bf Hb.
    destruct (wf_cover _ _ _ Hwf0 b) as (id & m & Hm & Hin);
      [by eapply lookup_lt_Some|].
    destruct (wf_hashed _ _ _ Hwf0 id m b Hm Hin) as (bf' & Hb' & Hs).
    exists id, m. split_and!; [congruence|done..]. }
  split_and!.
  - apply shard_of_small.
  - apply shard_of_large.
  - intros i m b bf Hm Hin Hb.
    destruct (wf_hashed _ _ _ Hwf i m b Hm Hin) as (bf' & Hb' & Hs). congruence.
  - intros p dev' blockno' s' v Hs Hh.
    destruct (bget_handed_out _ _ _ _ _ _ Hs Hh) as (bf & Hb & _ & Hn).
    destruct (Hplace s' (bget_wf _ _ _ _ _ Hwf Hs) v bf Hb) as (id & m & ? & ? & ?).
    exists id, m, bf. split_and!; [congruence|done..].
  - intros b bf Hb. destruct (Hplace s Hwf b bf Hb) as (id & m & Hid & Hm & Hin).
    exists id, m. split_and!; [done..| | |].
    + eexists. split; [by apply bpin_run|done].
    + eexists. split; [by apply bunpin_run|done].
    + intros p Hl. eexists. split; [by apply brelse_held|done].
Qed.

(** ** As many acquisitions as there are buffers *)

Lemma filter_insert_count {A} (P : A → Prop) `{∀ x, Decision (P x)}
    (l : list A) i x y :
  l !! i = Some x → ¬ P x → P y →
  length (filter P (<[i := y]> l)) = S (length (filter P l)).
Proof.
  intros Hi Hx Hy.
  rewrite insert_take_drop by by eapply lookup_lt_Some.
  rewrite <-(take_drop_middle l i x Hi) at 3.
  rewrite !filter_app, !length_app.
  rewrite filter_cons_True, filter_cons_False by done. simpl. lia.
Qed.

Lemma filter_all {A} (P : A → Prop) `{∀ x, Decision (P x)} (l : list A) :
  length (filter P l) = length l → Forall P l.
Proof.
  induction l as [|x l IH]; [constructor|].
  destruct (decide (P x)) as [Hx|Hx].
  - rewrite filter_cons_True by done. simpl. intros [= Hl]. constructor; auto.
  - rewrite filter_cons_False by done. simpl.
    pose proof (length_filter P l). lia.
Qed.

(** What a call of [bget] that returns has done to the buffers: the buffer
    it returns was unlocked and is now locked by the caller, with one more
    reference or with one reference. *)
Lemma bget_Ret p dev' blockno' s v s' :
  bget p dev' blockno' s = Ret v s' →
  ∃ bf new,
    bufs s !! v = Some bf ∧ lock bf = None ∧
    bufs s' = <[v := new]> (bufs s) ∧ lock new = Some p ∧
    (refcnt new = wrap32 (refcnt bf + 1) ∨ refcnt new = 1).
Proof.
  assert (∀ w bf bf1 s1,
    bufs s !! w = Some bf → lock bf1 = lock bf →
    bufs s1 = <[w := bf1]> (bufs s) →
    (refcnt bf1 = wrap32 (refcnt bf + 1) ∨ refcnt bf1 = 1) →
    (acquiresleep p w;; ret w)%bio s1 = Ret v s' →
    ∃ bf new,
      bufs s !! v = Some bf ∧ lock bf = None ∧
      bufs s' = <[v := new]> (bufs s) ∧ lock new = Some p ∧
      (refcnt new = wrap32 (refcnt bf + 1) ∨ refcnt new = 1)) as Htail.
  { intros w bf bf1 s1 Hw Hl Hs1 Hr.
    rewrite (lock_tail p w s1 bf1); last first.
    { rewrite Hs1. apply list_lookup_insert_eq. by eapply lookup_lt_Some. }
    destruct (lock bf1) eqn:Hl1; [done|]. intros [= <- <-].
    exists bf, (set_lock (Some p) bf1). simpl.
    split_and!; [done|congruence| |done..].
    by rewrite Hs1, list_insert_insert_eq. }
  intros Hg. pose proof (bget_cases p dev' blockno' s) as Hc. rewrite Hg in Hc.
  inversion Hc as [|id members b0 bf0 Hid Hm Hf Hb0 Ho
                   |id members w bfw Hid Hm Hf Hv Hbw Ho
                   |id members o Hid Hm Hf Hv Hst Ho].
  - refine (Htail _ _ (set_refcnt (wrap32 (refcnt bf0 + 1)) bf0) _ Hb0 _ _ _ Ho);
      simpl; [done..|by left].
  - refine (Htail _ _ (reinit dev' blockno' bfw) _ Hbw _ _ _ Ho);
      simpl; [done..|by right].
  - inversion Hst as [| |skipped i w mi target bfw Hi Hin Hnid Hmi Ht Hvi Hbw Ho'].
    refine (Htail _ _ (reinit dev' blockno' bfw) _ Hbw _ _ _ Ho');
      simpl; [done..|by right].
Qed.

Lemma bget_held_count p dev' blockno' s v s' k :
  Z.of_nat k + 1 < 2 ^ 32 →
  held_count k s →
  bget p dev' blockno' s = Ret v s' →
  held_count (S k) s'.
Proof.
  intros Hk [Hcount Href] Hg.
  destruct (bget_Ret _ _ _ _ _ _ Hg) as (bf & new & Hv & Hl & Hbufs & Hln & Hr).
  destruct (Href v bf Hv) as [Hrange _].
  split; rewrite Hbufs.
  - rewrite (filter_insert_count _ _ _ bf); [by rewrite Hcount|done| |];
      congruence.
  - intros b bfb. destruct (decide (b = v)) as [->|Hne].
    + rewrite list_lookup_insert_eq by by eapply lookup_lt_Some.
      intros [= <-]. destruct Hr as [->| ->].
      * rewrite wrap32_small by lia. split; [lia|]. intros _. lia.
      * split; [lia|]. intros _. lia.
    + rewrite list_lookup_insert_ne by done. intros Hb.
      destruct (Href b bfb Hb) as [? Hpos]. split; [lia|done].
Qed.

Lemma acquire_all_held_count reqs s s' k :
  Z.of_nat (k + length reqs) < 2 ^ 32 →
  wf s → held_count k s →
  acquire_all reqs s = Some s' →
  wf s' ∧ held_count (k + length reqs) s'.
Proof.
  revert s k. induction reqs as [|[[p dev'] blockno'] reqs IH]; intros s k; simpl.
  - intros _ ?? [= <-]. by rewrite Nat.add_0_r.
  - intros Hk Hwf Hc.
    destruct (bget p dev' blockno' s) as [v s1| | |] eqn:Hg; [|done..].
    intros Hall. replace (k + S (length reqs))%nat with (S k + length reqs)%nat by lia.
    apply (IH s1); [lia| | |done].
    + eapply bget_wf; [done|by rewrite Hg].
    + eapply bget_held_count; [|done..]. lia.
Qed.

Lemma binit_held_count d s : binit (boot d) = Ret tt s → held_count 0 s.
Proof.
  assert (held_count 0 (State (replicate NBUF (zero_buf BSIZE)) [] 0 d [])
          ∧ ∀ bk, held_count 0 (State (replicate NBUF (zero_buf BSIZE)) bk 0 d []))
    as [_ Hz].
  { assert (∀ bk, held_count 0 (State (replicate NBUF (zero_buf BSIZE)) bk 0 d []));
      [|done].
    intros bk. split; simpl.
    - induction NBUF as [|n IH]; [done|]. simpl.
      by rewrite filter_cons_False by (simpl; naive_solver).
    - intros b bf [-> _]%lookup_replicate. simpl. split; [lia|done]. }
  destruct (decide (0 < NBUCKET)%nat) as [Hk|Hk].
  - rewrite binit_boot by done. intros [= <-]. apply Hz.
  - assert (NBUCKET = 0)%nat as Hn by lia.
    unfold binit, boot. rewrite Hn. simpl.
    unfold bind at 1. simpl. unfold bind at 1. simpl.
    destruct NBUF as [|n]; simpl; [|done].
    intros [= <-]. apply (Hz []).
Qed.

(** C4. When the block is not cached in its shard and no member of any
    shard has reference count 0, [bget] panics with "bget: no buf" after
    having visited every other shard, and leaves every buffer and every
    bucket as it was. This is what happens after as many acquisitions as
    there are buffers, none of them released: the next acquisition of a
    block that no buffer holds panics, and no buffer changes identity. *)
Theorem bget_capacity_exhausted p dev' blockno' s id :
  shard_of blockno' = Some id →
  (∀ members,
     length (buckets s) = NBUCKET →
     buckets s !! id = Some members →
     (∀ x bf, x ∈ members → bufs s !! x = Some bf →
        ¬ (dev bf = dev' ∧ blockno bf = blockno')) →
     (∀ i m x bf, buckets s !! i = Some m → x ∈ m → bufs s !! x = Some bf →
        refcnt bf ≠ 0) →
     bget p dev' blockno' s =
       Panic "bget: no buf"
         (State (bufs s) (buckets s) (ticks s) (disk s)
            (trace s ++ [EvAcquire id]
               ++ skip_events (filter (λ i, i ≠ id) (seq 0 NBUCKET))
               ++ [EvRelease id]))) ∧
  (∀ d s0 reqs,
     Z.of_nat NBUF < 2 ^ 32 →
     binit (boot d) = Ret tt s0 →
     length reqs = NBUF →
     acquire_all reqs s0 = Some s →
     (∀ x bf, bufs s !! x = Some bf →
        ¬ (dev bf = dev' ∧ blockno bf = blockno')) →
     bget p dev' blockno' s =
       Panic "bget: no buf"
         (State (bufs s) (buckets s) (ticks s) (disk s)
            (trace s ++ [EvAcquire id]
               ++ skip_events (filter (λ i, i ≠ id) (seq 0 NBUCKET))
               ++ [EvRelease id]))).
Proof.
  intros Hid. split.
  - intros members Hlen Hm Hmiss Hbusy. by eapply bget_no_buf.
  - intros d s0 reqs Hn Hinit Hreqs Hall Hmiss.
    destruct (acquire_all_held_count reqs s0 s 0) as [Hwf [Hcount Href]];
      [simpl; lia|by eapply binit_wf|by eapply binit_held_count|done|].
    simpl in Hcount.
    assert (id < length (buckets s))%nat as Hlt.
    { rewrite (wf_buckets _ _ _ Hwf). by eapply bucket_index_lt. }
    destruct (lookup_lt_is_Some_2 _ _ Hlt) as [members Hm].
    eapply bget_no_buf; [done|by eapply wf_buckets|done|by eauto|].
    intros i m x bf _ _ Hx.
    assert (Forall (λ bf, lock bf ≠ None) (bufs s)) as Hlocked.
    { eapply filter_all. rewrite Hcount, Hreqs. symmetry. by eapply wf_bufs. }
    rewrite Forall_lookup in Hlocked.
    destruct (Href x bf Hx) as [_ Hpos]. specialize (Hpos (Hlocked x bf Hx)). lia.
Qed.

(** * Further properties of the cache *)

(** ** What one call of [bget] changes *)

Lemma find_cached_no_match bs members dev' blockno' :
  find_cached bs members dev' blockno' = None →
  ∀ x bf, x ∈ members → bs !! x = Some bf →
    ¬ (dev bf = dev' ∧ blockno bf = blockno').
Proof.
  induction members as [|x members IH]; simpl.
  - intros _ ?? []%elem_of_nil.
  - destruct (bs !! x) as [bf|] eqn:Hx.
    + destruct ((dev bf =? dev') && (blockno bf =? blockno')) eqn:Hid; [done|].
      intros Hn y bfy [->|Hy]%elem_of_cons Hbf; [|by eauto].
      rewrite Hx in Hbf. injection Hbf as <-. lia.
    + intros Hn y bfy [->|Hy]%elem_of_cons Hbf; [congruence|by eauto].
Qed.

(** The whole effect of a call of [bget] on the buffers, the disk and the
    clock: nothing at all when it panics; otherwise one buffer changes, the
    one handed out, which either had the identity asked for and gets one
    more reference, or had no reference and is initialised afresh after a
    miss in the shard of the block. *)
Lemma bget_change p dev' blockno' s s' :
  state_of (bget p dev' blockno' s) = Some s' →
  disk s' = disk s ∧ ticks s' = ticks s ∧
  ((handed_out (bget p dev' blockno' s) = None ∧
    bufs s' = bufs s ∧ buckets s' = buckets s) ∨
   ∃ v bf new,
     handed_out (bget p dev' blockno' s) = Some v ∧
     bufs s !! v = Some bf ∧
     bufs s' = <[v := new]> (bufs s) ∧
     (lock new = lock bf ∨ (lock bf = None ∧ lock new = Some p)) ∧
     dev new = dev' ∧ blockno new = blockno' ∧
     data new = data bf ∧ lastuse new = lastuse bf ∧
     ((dev bf = dev' ∧ blockno bf = blockno' ∧ valid new = valid bf ∧
       refcnt new = wrap32 (refcnt bf + 1) ∧ buckets s' = buckets s) ∨
      (refcnt bf = 0 ∧ valid new = false ∧ refcnt new = 1 ∧
       ∃ id members,
         shard_of blockno' = Some id ∧ buckets s !! id = Some members ∧
         ∀ x bfx, x ∈ members → bufs s !! x = Some bfx →
           ¬ (dev bfx = dev' ∧ blockno bfx = blockno')))).
Proof.
  assert (∀ v bf bf1 bk tr o,
    bufs s !! v = Some bf → lock bf1 = lock bf →
    o = (acquiresleep p v;; ret v)%bio
          (State (<[v := bf1]> (bufs s)) bk (ticks s) (disk s) tr) →
    state_of o = Some s' →
    disk s' = disk s ∧ ticks s' = ticks s ∧ buckets s' = bk ∧
    handed_out o = Some v ∧
    ∃ new, bufs s' = <[v := new]> (bufs s) ∧
      (lock new = lock bf ∨ (lock bf = None ∧ lock new = Some p)) ∧
      dev new = dev bf1 ∧ blockno new = blockno bf1 ∧ data new = data bf1 ∧
      lastuse new = lastuse bf1 ∧ valid new = valid bf1 ∧
      refcnt new = refcnt bf1) as Htail.
  { intros v bf bf1 bk tr o Hv Hl ->.
    rewrite (lock_tail p v _ bf1); last first.
    { simpl. apply list_lookup_insert_eq. by eapply lookup_lt_Some. }
    destruct (lock bf1) as [q|] eqn:Hl1; simpl; intros [= <-]; simpl.
    - split_and!; [done..|]. exists bf1.
      split_and!; [done|left; congruence|done..].
    - split_and!; [done..|]. exists (set_lock (Some p) bf1).
      rewrite list_insert_insert_eq. split_and!; [done| |done..].
      right. split; [congruence|done]. }
  destruct (bget_cases p dev' blockno' s)
    as [_|id members b0 bf0 Hid Hm Hf Hb0|id members v bfv Hid Hm Hf Hv Hbv
        |id members o Hid Hm Hf Hv Hst]; [done|..].
  - intros Hs.
    destruct (find_cached_Some _ _ _ _ _ Hf) as (bf & Hbf & Hd & Hn & _).
    assert (bf = bf0) as -> by congruence.
    destruct (Htail b0 bf0 (set_refcnt (wrap32 (refcnt bf0 + 1)) bf0) _ _ _
                Hb0 eq_refl eq_refl Hs)
      as (? & ? & ? & ? & new & ? & ? & Hdn & Hbn & ? & ? & ? & ?).
    split_and!; [done..|]. right. exists b0, bf0, new.
    simpl in *. split_and!; [done..|congruence|congruence|done|done|].
    left. by split_and!.
  - intros Hs.
    destruct (scan_victim_Some _ _ _ _ Hv) as (bf & _ & Hbf & Hr & _).
    assert (bf = bfv) as -> by congruence.
    destruct (Htail v bfv (reinit dev' blockno' bfv) _ _ _ Hbv eq_refl eq_refl Hs)
      as (? & ? & ? & ? & new & ? & ? & Hdn & Hbn & ? & ? & ? & ?).
    split_and!; [done..|]. right. exists v, bfv, new.
    simpl in *. split_and!; [done..|].
    right. split_and!; [done..|]. exists id, members. split_and!; [done..|].
    by apply find_cached_no_match.
  - destruct Hst as [? _ _|skipped Hsk Hno
                     |skipped i v mi target bfv Hi Hin Hnid Hmi Ht Hvi Hbv];
      [done|..].
    + simpl. intros [= <-]. simpl. split_and!; [done..|]. by left.
    + intros Hs.
      destruct (scan_victim_Some _ _ _ _ Hvi) as (bf & _ & Hbf & Hr & _).
      assert (bf = bfv) as -> by congruence.
      destruct (Htail v bfv (reinit dev' blockno' bfv) _ _ _ Hbv eq_refl
                  eq_refl Hs)
        as (? & ? & ? & ? & new & ? & ? & Hdn & Hbn & ? & ? & ? & ?).
      split_and!; [done..|]. right. exists v, bfv, new.
      simpl in *. split_and!; [done..|].
      right. split_and!; [done..|]. exists id, members. split_and!; [done..|].
      by apply find_cached_no_match.
Qed.

(** X1. [binit], run on the zeroed memory of the cache with at least one
    bucket, returns with every buffer linked into bucket 0, the buffer
    initialised last at the head, and all other buckets empty; it takes no
    lock and touches no disk block. With no bucket at all and at least one
    buffer it indexes [bcache.buckets[0]] out of bounds. *)
Theorem binit_links_all_into_bucket_0 d :
  ((0 < NBUCKET)%nat →
   binit (boot d) =
     Ret tt (State (replicate NBUF (zero_buf BSIZE))
               (rev (seq 0 NBUF) :: replicate (NBUCKET - 1) []) 0 d [])) ∧
  (NBUCKET = 0%nat → (0 < NBUF)%nat → binit (boot d) = Fault).
Proof.
  split.
  - apply binit_boot.
  - intros Hk Hn. unfold binit, boot. rewrite Hk. simpl.
    unfold bind at 1. simpl. unfold bind at 1. simpl.
    destruct NBUF as [|n]; [lia|done].
Qed.

(** X2. [bget] never writes a block back and never touches a payload:
    whatever way it ends, the disk and the clock are as before and every
    buffer has the payload and the stamp it had, the evicted buffer
    included, whose old contents are simply given up. *)
Theorem bget_never_writes_back p dev' blockno' s s' :
  state_of (bget p dev' blockno' s) = Some s' →
  disk s' = disk s ∧ ticks s' = ticks s ∧
  length (bufs s') = length (bufs s) ∧
  ∀ b bf, bufs s !! b = Some bf →
    ∃ bf', bufs s' !! b = Some bf' ∧
      data bf' = data bf ∧ lastuse bf' = lastuse bf.
Proof.
  intros Hs.
  destruct (bget_change _ _ _ _ _ Hs)
    as (Hd & Ht & [(_ & Hb & _)|(v & bfv & new & _ & Hv & Hb & _ & _ & _
                                  & Hdata & Hlast & _)]).
  - split_and!; [done..|by rewrite Hb|]. intros b bf Hbf. rewrite Hb. eauto.
  - split_and!; [done..|by rewrite Hb, length_insert|].
    intros b bf Hbf. rewrite Hb. destruct (decide (b = v)) as [->|Hne].
    + rewrite list_lookup_insert_eq by by eapply lookup_lt_Some.
      exists new. split_and!; [done|congruence..].
    + rewrite list_lookup_insert_ne by done. eauto.
Qed.

(** X3. [bget] keeps one copy of a block. In a state the cache can reach,
    when some buffer already has the identity asked for, the buffer handed
    out is one that had it, and no buffer changes identity, [valid] or
    payload; when no buffer has it, the buffer handed out is afterwards the
    only one with that identity. *)
Theorem bget_never_duplicates p dev' blockno' s s' v :
  reachable s →
  state_of (bget p dev' blockno' s) = Some s' →
  handed_out (bget p dev' blockno' s) = Some v →
  ((∃ b bf, bufs s !! b = Some bf ∧ dev bf = dev' ∧ blockno bf = blockno') →
   (∃ bf, bufs s !! v = Some bf ∧ dev bf = dev' ∧ blockno bf = blockno') ∧
   ∀ b bf, bufs s !! b = Some bf →
     ∃ bf', bufs s' !! b = Some bf' ∧ dev bf' = dev bf ∧
       blockno bf' = blockno bf ∧ valid bf' = valid bf ∧ data bf' = data bf) ∧
  ((∀ b bf, bufs s !! b = Some bf →
      ¬ (dev bf = dev' ∧ blockno bf = blockno')) →
   ∀ b bf, bufs s' !! b = Some bf →
     dev bf = dev' ∧ blockno bf = blockno' → b = v).
Proof.
  intros Hwf%reachable_wf Hs Hv.
  destruct (bget_change _ _ _ _ _ Hs)
    as (_ & _ & [(Hnone & _)|(w & bfw & new & Hw & Hbw & Hb & _ & Hdn & Hbn
                              & Hdata & _ & Hcase)]); [congruence|].
  assert (w = v) as -> by congruence.
  split.
  - intros (b & bf & Hbf & Hd & Hn).
    destruct Hcase as [(Hdw & Hnw & Hval & _)
                      |(_ & _ & _ & id & members & Hid & Hm & Hmiss)].
    + split; [by exists bfw|].
      intros x bfx Hx. rewrite Hb. destruct (decide (x = v)) as [->|Hne].
      * rewrite list_lookup_insert_eq by by eapply lookup_lt_Some.
        exists new. assert (bfx = bfw) as -> by congruence.
        split_and!; [done|congruence..].
      * rewrite list_lookup_insert_ne by done. by exists bfx.
    + exfalso.
      destruct (wf_cover _ _ _ Hwf b) as (i & m & Hmi & Hin);
        [by eapply lookup_lt_Some|].
      destruct (wf_hashed _ _ _ Hwf i m b Hmi Hin) as (bf' & Hbf' & Hsh).
      assert (bf' = bf) as -> by congruence.
      rewrite Hn, Hid in Hsh. injection Hsh as <-.
      assert (m = members) as -> by congruence.
      by eapply Hmiss.
  - intros Hno b bf. rewrite Hb. destruct (decide (b = v)) as [->|Hne]; [done|].
    rewrite list_lookup_insert_ne by done. intros Hbf Hid.
    by destruct (Hno b bf Hbf).
Qed.

(** X4. The pool is fixed and partitioned. In every state the cache can
    reach from [binit] there are [NBUF] buffers and [NBUCKET] buckets,
    every buffer is a member of exactly one bucket, and no bucket lists a
    buffer twice or lists anything that is not a buffer. *)
Theorem pool_fixed_and_partitioned s :
  reachable s →
  length (bufs s) = NBUF ∧ length (buckets s) = NBUCKET ∧
  (∀ b, (b < NBUF)%nat →
     ∃ i m, buckets s !! i = Some m ∧ b ∈ m ∧
       ∀ j m', buckets s !! j = Some m' → b ∈ m' → j = i) ∧
  (∀ i m, buckets s !! i = Some m →
     NoDup m ∧ ∀ b, b ∈ m → (b < NBUF)%nat).
Proof.
  intros Hwf%reachable_wf.
  pose proof (wf_bufs _ _ _ Hwf) as Hn.
  split_and!; [done|by eapply wf_buckets|..].
  - intros b Hb. rewrite <-Hn in Hb.
    destruct (wf_cover _ _ _ Hwf b Hb) as (i & m & Hm & Hin).
    exists i, m. split_and!; [done..|].
    intros j m' Hm' Hin'.
    destruct (wf_hashed _ _ _ Hwf i m b Hm Hin) as (bf & Hbf & Hsh).
    destruct (wf_hashed _ _ _ Hwf j m' b Hm' Hin') as (bf' & Hbf' & Hsh').
    congruence.
  - intros i m Hm. split; [by eapply wf_nodup|].
    intros b Hin.
    destruct (wf_hashed _ _ _ Hwf i m b Hm Hin) as (bf & Hbf & _).
    rewrite <-Hn. by eapply lookup_lt_Some.
Qed.

(** X5. No stamp is in the future. In every state the cache can reach from
    [binit] the [lastuse] of every buffer is at most the current tick:
    [brelse] is the only writer of [lastuse] and writes the current tick,
    and [bufinit] leaves the stamp of the evicted buffer in place. *)
Theorem lastuse_never_after_ticks s b bf :
  reachable s →
  bufs s !! b = Some bf →
  lastuse bf ≤ ticks s.
Proof.
  intros Hwf%reachable_wf Hb. by eapply wf_stamps.
Qed.

(** ** Reading, writing and releasing *)

Lemma bget_shard p dev' blockno' s s' :
  state_of (bget p dev' blockno' s) = Some s' →
  ∃ id, shard_of blockno' = Some id.
Proof.
  unfold bget, shard_of, shard.
  destruct (bucket_index (myhash (to_int blockno'))) as [id|]; [eauto|done].
Qed.

Lemma bread_after_bget p dev' blockno' s b s1 bf :
  bget p dev' blockno' s = Ret b s1 →
  bufs s1 !! b = Some bf →
  bread p dev' blockno' s =
    Ret b (if valid bf then s1
           else State
             (<[b := Buf true (dev bf) (blockno bf) (lock bf) (refcnt bf)
                      (lastuse bf) (disk s1 (dev bf) (blockno bf))]>
                (bufs s1))
             (buckets s1) (ticks s1) (disk s1)
             (trace s1 ++ [EvDisk b false])).
Proof.
  intros Hg Hb. unfold bread. unfold bind at 1. rewrite Hg.
  assert (b < length (bufs s1))%nat as Hlt by by eapply lookup_lt_Some.
  run. rewrite Hb. destruct (valid bf) eqn:Hval; run; [by destruct s1|].
  rewrite Hb. run. rewrite Hb. run.
  rewrite list_lookup_insert_eq by done. run.
  rewrite list_insert_insert_eq. done.
Qed.

Lemma bwrite_held p b s bf :
  bufs s !! b = Some bf →
  lock bf = Some p →
  bwrite p b s =
    Ret tt (State (bufs s) (buckets s) (ticks s)
              (λ d n, if (d =? dev bf) && (n =? blockno bf)
                      then data bf else disk s d n)
              (trace s ++ [EvDisk b true])).
Proof.
  intros Hb Hl. unfold bwrite. run. rewrite Hb. run. rewrite Hl.
  rewrite bool_decide_eq_true_2 by done. run. rewrite Hb. run. done.
Qed.

(** X6. [bwrite], called by the holder of the sleep lock, makes one
    transfer to the disk: afterwards the disk block of the identity of the
    buffer holds the payload of the buffer, every other disk block is as
    before, and no buffer, bucket or shard lock was touched. *)
Theorem bwrite_writes_one_block p b s bf :
  bufs s !! b = Some bf →
  lock bf = Some p →
  ∃ s', bwrite p b s = Ret tt s' ∧
    bufs s' = bufs s ∧ buckets s' = buckets s ∧ ticks s' = ticks s ∧
    trace s' = trace s ++ [EvDisk b true] ∧
    disk s' (dev bf) (blockno bf) = data bf ∧
    ∀ d n, ¬ (d = dev bf ∧ n = blockno bf) → disk s' d n = disk s d n.
Proof.
  intros Hb Hl. eexists. split; [by apply bwrite_held|]. simpl.
  split_and!; [done..| |].
  - by rewrite !Z.eqb_refl.
  - intros d n Hne.
    destruct (d =? dev bf) eqn:Hd; [|done].
    destruct (n =? blockno bf) eqn:Hn; [|done].
    destruct Hne. lia.
Qed.

(** X7. What [bread] returns. When [bread] returns a buffer without
    having had to wait for its sleep lock, the buffer has the identity
    asked for, is [valid], and its sleep lock, free before the call, is
    held by the caller, so that [bwrite] and [brelse] by the caller go
    through. Its payload is the disk block of that identity, read during
    the call, or the payload of a buffer that was cached with that
    identity and [valid] before the call, in which case no transfer was
    made. When [bread] returns after a wait, woken in a state where the
    lock is free, the buffer is as it was in that state but for this: it is
    [valid], its sleep lock is held by the caller, and its payload is the
    disk block of its identity, read by one transfer, when it was not
    [valid], and is untouched when it was. Nothing else has changed. *)
Theorem bread_returns_locked_valid p dev' blockno' s b s' :
  (bread p dev' blockno' s = Ret b s' →
   ∃ bf bf0,
     bufs s !! b = Some bf0 ∧ lock bf0 = None ∧
     bufs s' !! b = Some bf ∧
     dev bf = dev' ∧ blockno bf = blockno' ∧
     valid bf = true ∧ lock bf = Some p ∧
     ((data bf = disk s dev' blockno' ∧ disk s' = disk s ∧
       ∃ evs, trace s' = trace s ++ evs ++ [EvDisk b false] ∧
         Forall (λ e, is_disk e = false) evs) ∨
      (dev bf0 = dev' ∧ blockno bf0 = blockno' ∧ valid bf0 = true ∧
       data bf = data bf0 ∧ disk s' = disk s ∧
       ∃ evs, trace s' = trace s ++ evs ∧
         Forall (λ e, is_disk e = false) evs)) ∧
     (∃ s'', bwrite p b s' = Ret tt s'') ∧
     (∃ s'', brelse p b s' = Ret tt s'')) ∧
  (wakeup p b s = Ret b s' →
   ∃ bf bf0,
     bufs s !! b = Some bf0 ∧ lock bf0 = None ∧
     bufs s' = <[b := bf]> (bufs s) ∧
     dev bf = dev bf0 ∧ blockno bf = blockno bf0 ∧
     refcnt bf = refcnt bf0 ∧ lastuse bf = lastuse bf0 ∧
     valid bf = true ∧ lock bf = Some p ∧
     buckets s' = buckets s ∧ ticks s' = ticks s ∧ disk s' = disk s ∧
     ((valid bf0 = false ∧ data bf = disk s (dev bf0) (blockno bf0) ∧
       trace s' = trace s ++ [EvAcquireSleep b; EvDisk b false]) ∨
      (valid bf0 = true ∧ data bf = data bf0 ∧
       trace s' = trace s ++ [EvAcquireSleep b])) ∧
     (∃ s'', bwrite p b s' = Ret tt s'') ∧
     (∀ id, shard_of (blockno bf0) = Some id →
        ∃ s'', brelse p b s' = Ret tt s'')).
Proof.
  split; last first.
  { intros Hw.
    destruct (bufs s !! b) as [bf0|] eqn:Hb0; last first.
    { revert Hw. unfold wakeup. run. by rewrite Hb0. }
    assert (b < length (bufs s))%nat as Hlt by by eapply lookup_lt_Some.
    rewrite (wakeup_run _ _ _ _ Hb0) in Hw.
    destruct (lock bf0) as [q|] eqn:Hl0; [done|]. injection Hw as <-.
    set (bf := Buf true (dev bf0) (blockno bf0) (Some p) (refcnt bf0)
                 (lastuse bf0)
                 (if valid bf0 then data bf0
                  else disk s (dev bf0) (blockno bf0))).
    assert (<[b := bf]> (bufs s) !! b = Some bf) as Hbf
      by by apply list_lookup_insert_eq.
    exists bf, bf0. simpl. split_and!; [done..| | |].
    - destruct (valid bf0); [right|left]; done.
    - erewrite bwrite_held; [eauto|exact Hbf|done].
    - intros id Hid. erewrite (brelse_held _ _ _ _ id); [eauto|exact Hbf|done..]. }
  intros Hr.
  destruct (bget p dev' blockno' s) as [b1 s1|msg s1|b1 s1|] eqn:Hg;
    [|unfold bread in Hr; unfold bind at 1 in Hr; by rewrite Hg in Hr..].
  destruct (bget_Ret _ _ _ _ _ _ Hg) as (bf0 & new & Hb0 & Hl0 & Hbufs & Hln & _).
  assert (b1 < length (bufs s))%nat as Hlt by by eapply lookup_lt_Some.
  assert (bufs s1 !! b1 = Some new) as Hnew
    by by rewrite Hbufs, list_lookup_insert_eq.
  destruct (bget_shard p dev' blockno' s s1) as [id Hid]; [by rewrite Hg|].
  destruct (bget_no_disk p dev' blockno' s s1) as (evs & Htr & Hevs);
    [by rewrite Hg|].
  destruct (bget_change p dev' blockno' s s1)
    as (Hd & _ & [(Hnone & _)|(v & bfv & new' & Hv & Hbv & Hbufs' & _ & Hdn
                               & Hbn & Hdata & _ & Hcase)]);
    [by rewrite Hg|by rewrite Hg in Hnone|].
  rewrite Hg in Hv. injection Hv as <-.
  assert (bfv = bf0) as -> by congruence.
  assert (new' = new) as ->.
  { rewrite Hbufs', list_lookup_insert_eq in Hnew by done. congruence. }
  rewrite (bread_after_bget _ _ _ _ _ _ _ Hg Hnew) in Hr.
  injection Hr as <- <-.
  destruct (valid new) eqn:Hval.
  - exists new, bf0. split_and!; [done..| | |].
    + right. destruct Hcase as [(? & ? & ? & _)|(_ & ? & _)]; [|congruence].
      split_and!; [done|done|congruence|done|done|]. by exists evs.
    + rewrite (bwrite_held _ _ _ _ Hnew Hln). eauto.
    + rewrite (brelse_held _ _ _ _ id Hnew Hln) by by rewrite Hbn. eauto.
  - set (read := Buf true (dev new) (blockno new) (lock new) (refcnt new)
                  (lastuse new) (disk s1 (dev new) (blockno new))).
    set (s2 := State (<[b1 := read]> (bufs s1)) (buckets s1) (ticks s1)
                 (disk s1) (trace s1 ++ [EvDisk b1 false])).
    assert (bufs s2 !! b1 = Some read) as Hread.
    { simpl. by apply list_lookup_insert_eq; rewrite Hbufs, length_insert. }
    exists read, bf0.
    split_and!; [done..| | |].
    + left. simpl. split_and!; [by rewrite Hd, Hdn, Hbn|done|].
      exists evs. by rewrite Htr, <-app_assoc.
    + rewrite (bwrite_held _ _ _ _ Hread Hln). eauto.
    + rewrite (brelse_held _ _ _ _ id Hread Hln) by (by simpl; rewrite Hbn).
      eauto.
Qed.

Lemma wrap32_inc_dec z : wrap32 (wrap32 (z + 1) - 1) = wrap32 z.
Proof.
  unfold wrap32. rewrite Zminus_mod_idemp_l. f_equal. lia.
Qed.

Lemma wrap32_dec_inc z : wrap32 (wrap32 (z - 1) + 1) = wrap32 z.
Proof.
  unfold wrap32. rewrite Zplus_mod_idemp_l. f_equal. lia.
Qed.

(** X8. [bpin] and [bunpin] undo each other, in either order and whatever
    the sleep lock is: after one of each the buffers, the buckets, the disk
    and the clock are as before, and the lock of the shard of the buffer
    was taken and dropped twice. This holds at reference count 0 as well,
    where [bunpin] first wraps the unsigned count around. *)
Theorem bpin_bunpin_cancel b s bf id :
  bufs s !! b = Some bf →
  shard_of (blockno bf) = Some id →
  0 ≤ refcnt bf < 2 ^ 32 →
  (bpin b;; bunpin b)%bio s =
    Ret tt (State (bufs s) (buckets s) (ticks s) (disk s)
              (trace s ++ [EvAcquire id; EvRelease id;
                           EvAcquire id; EvRelease id])) ∧
  (bunpin b;; bpin b)%bio s =
    Ret tt (State (bufs s) (buckets s) (ticks s) (disk s)
              (trace s ++ [EvAcquire id; EvRelease id;
                           EvAcquire id; EvRelease id])).
Proof.
  intros Hb Hid Hr.
  assert (b < length (bufs s))%nat as Hlt by by eapply lookup_lt_Some.
  split.
  - unfold bind. rewrite (bpin_run _ _ _ _ Hb Hid).
    erewrite bunpin_run;
      [|by simpl; apply list_lookup_insert_eq|by simpl].
    simpl. rewrite list_insert_insert_eq, wrap32_inc_dec, wrap32_small by done.
    rewrite <-app_assoc. simpl. do 2 f_equal.
    apply list_insert_id. by destruct bf.
  - unfold bind. rewrite (bunpin_run _ _ _ _ Hb Hid).
    erewrite bpin_run;
      [|by simpl; apply list_lookup_insert_eq|by simpl].
    simpl. rewrite list_insert_insert_eq, wrap32_dec_inc, wrap32_small by done.
    rewrite <-app_assoc. simpl. do 2 f_equal.
    apply list_insert_id. by destruct bf.
Qed.

(** X9. [bread] followed by [brelse] on a block that is cached, [valid] and
    not locked gives the buffer back as it was found: the reference count
    and the sleep lock are as before, no transfer is made, and the only
    trace left in the buffer is the stamp, which is the current tick when
    nobody else refers to the buffer and is untouched otherwise. *)
Theorem bread_brelse_round_trip p dev' blockno' s id before b after bf :
  shard_of blockno' = Some id →
  buckets s !! id = Some (before ++ b :: after) →
  bufs s !! b = Some bf →
  dev bf = dev' ∧ blockno bf = blockno' →
  (∀ x bfx, x ∈ before → bufs s !! x = Some bfx →
     ¬ (dev bfx = dev' ∧ blockno bfx = blockno')) →
  valid bf = true → lock bf = None →
  0 ≤ refcnt bf < 2 ^ 32 →
  (b' ← bread p dev' blockno'; brelse p b')%bio s =
    Ret tt (State
      (<[b := set_lastuse (if refcnt bf =? 0 then ticks s else lastuse bf)
                bf]> (bufs s))
      (buckets s) (ticks s) (disk s)
      (trace s ++ [EvAcquire id; EvRelease id; EvAcquireSleep b;
                   EvReleaseSleep b; EvAcquire id; EvRelease id])).
Proof.
  intros Hid Hm Hb [Hd Hn] Hno Hval Hl Hr.
  assert (b < length (bufs s))%nat as Hlt by by eapply lookup_lt_Some.
  pose proof (find_cached_app _ _ _ after _ _ _ Hb Hd Hn Hno) as Hf.
  pose proof (bget_hit p _ _ _ _ _ _ _ Hid Hm Hf Hb) as Hg.
  erewrite lock_tail in Hg;
    last by (simpl; apply list_lookup_insert_eq).
  simpl in Hg. rewrite Hl in Hg. simpl in Hg.
  rewrite list_insert_insert_eq in Hg.
  unfold bind.
  erewrite bread_after_bget;
    [|exact Hg|by simpl; apply list_lookup_insert_eq].
  simpl. rewrite Hval.
  erewrite (brelse_held _ _ _ _ id);
    [|by simpl; apply list_lookup_insert_eq|done|by simpl; rewrite Hn].
  simpl. rewrite list_insert_insert_eq, wrap32_inc_dec, wrap32_small by done.
  do 2 f_equal; [|by rewrite <-!app_assoc].
  f_equal. by destruct bf; simplify_eq/=.
Qed.

(** ** Stealing *)

Lemma scan_victim_no_candidate bs members minticks :
  (∀ x, x ∈ members → ¬ candidate bs minticks x) →
  (scan_victim bs members minticks None).2 = None.
Proof.
  intros Hno.
  destruct (scan_victim bs members minticks None).2 as [v|] eqn:Hv; [|done].
  destruct (scan_victim_Some _ _ _ _ Hv) as (bf & Hin & Hbf & Hr & Hl & _).
  destruct (Hno v Hin). by exists bf.
Qed.

(** The loop passes over the shards that have nothing to give. *)
Lemma steal_prefix p id dev' blockno' pre rest s :
  (∀ i, i ∈ pre → i ≠ id →
     ∃ m, buckets s !! i = Some m ∧
       (scan_victim (bufs s) m (ticks s) None).2 = None) →
  steal p id dev' blockno' (pre ++ rest) s =
    steal p id dev' blockno' rest
      (State (bufs s) (buckets s) (ticks s) (disk s)
         (trace s ++ skip_events (filter (λ i, i ≠ id) pre))).
Proof.
  revert s. induction pre as [|i pre IH]; intros s Hpre.
  - simpl. rewrite app_nil_r. by destruct s.
  - rewrite <-app_comm_cons. destruct (decide (i = id)) as [->|Hne].
    + rewrite steal_self, filter_cons_False by (by intros ?).
      apply IH. intros j Hj. apply Hpre. by right.
    + destruct (Hpre i) as (m & Hm & Hscan); [by left|done|].
      rewrite (steal_skip _ _ _ _ _ _ _ _ Hne Hm Hscan).
      rewrite filter_cons_True by done.
      rewrite IH; simpl.
      * by rewrite <-app_assoc.
      * intros j Hj. apply Hpre. by right.
Qed.

(** X10. The order of stealing. On a miss with no candidate in the own
    shard, [bget] visits the other shards by rising index and takes from
    the first one that has a candidate: from that shard it takes a member
    without references with the least stamp, re-initialises it, unlinks it
    there and links it at the head of the own shard. Shards of higher
    index are not visited, whatever they hold. *)
Theorem bget_steals_from_first_shard p dev' blockno' s id members i mi :
  length (buckets s) = NBUCKET →
  shard_of blockno' = Some id →
  buckets s !! id = Some members →
  (∀ x bf, x ∈ members → bufs s !! x = Some bf →
     ¬ (dev bf = dev' ∧ blockno bf = blockno')) →
  (∀ x, x ∈ members → ¬ candidate (bufs s) (ticks s) x) →
  i ≠ id →
  buckets s !! i = Some mi →
  (∀ j m x, (j < i)%nat → j ≠ id → buckets s !! j = Some m → x ∈ m →
     ¬ candidate (bufs s) (ticks s) x) →
  (∃ x, x ∈ mi ∧ candidate (bufs s) (ticks s) x) →
  ∃ v bf,
    v ∈ mi ∧ bufs s !! v = Some bf ∧ refcnt bf = 0 ∧
    (∀ x bfx, x ∈ mi → bufs s !! x = Some bfx → refcnt bfx = 0 →
       lastuse bf ≤ lastuse bfx) ∧
    bget p dev' blockno' s =
      (acquiresleep p v;; ret v)%bio
        (State (<[v := reinit dev' blockno' bf]> (bufs s))
           (<[id := v :: members]> (<[i := unlink v mi]> (buckets s)))
           (ticks s) (disk s)
           (trace s ++ [EvAcquire id]
              ++ skip_events (filter (λ j, j ≠ id) (seq 0 i))
              ++ [EvAcquire i; EvDetach i v; EvRelease i; EvAttach id v;
                  EvRelease id])).
Proof.
  intros Hlen Hid Hm Hmiss%find_cached_miss Hlocal%scan_victim_no_candidate
    Hne Hmi Hbefore (x & Hx & Hcand).
  destruct (scan_victim_found _ _ _ _ Hx Hcand) as [v Hv].
  destruct (scan_victim_Some _ _ _ _ Hv) as (bf & Hin & Hbf & Hr & _ & Hmin).
  exists v, bf. split_and!; [done..|].
  rewrite (bget_steal _ _ _ _ _ _ Hid Hm Hmiss Hlocal).
  assert (i < NBUCKET)%nat as Hi by (rewrite <-Hlen; by eapply lookup_lt_Some).
  replace (seq 0 NBUCKET) with (seq 0 i ++ i :: seq (S i) (NBUCKET - S i));
    last first.
  { remember (NBUCKET - S i)%nat as k eqn:Hk.
    assert (NBUCKET = i + S k)%nat as -> by lia.
    by rewrite seq_app. }
  rewrite steal_prefix.
  - erewrite steal_take; [|done|exact Hmi|exact Hv|exact Hbf]. simpl.
    rewrite Hm. by rewrite <-!app_assoc.
  - simpl. intros j Hj%elem_of_seq Hjne.
    assert (is_Some (buckets s !! j)) as [m Hmj].
    { apply lookup_lt_is_Some. lia. }
    exists m. split; [done|]. apply scan_victim_no_candidate.
    intros y Hy. eapply Hbefore; [|done..]. lia.
Qed.

(** ** Sequences of acquisitions *)

Lemma bget_keeps_referenced p dev' blockno' s s' b bf :
  state_of (bget p dev' blockno' s) = Some s' →
  bufs s !! b = Some bf →
  0 < refcnt bf →
  ∃ bf', bufs s' !! b = Some bf' ∧
    dev bf' = dev bf ∧ blockno bf' = blockno bf ∧ valid bf' = valid bf ∧
    data bf' = data bf ∧ lastuse bf' = lastuse bf ∧
    (refcnt bf' = refcnt bf ∨ refcnt bf' = wrap32 (refcnt bf + 1)).
Proof.
  intros Hs Hb Hr.
  destruct (bget_change _ _ _ _ _ Hs)
    as (_ & _ & [(_ & Hbufs & _)|(v & bfv & new & _ & Hv & Hbufs & _ & Hdn
                                  & Hbn & Hdata & Hlast & Hcase)]).
  - exists bf. rewrite Hbufs. split_and!; [done..|by left].
  - rewrite Hbufs. destruct (decide (b = v)) as [->|Hne].
    + rewrite list_lookup_insert_eq by by eapply lookup_lt_Some.
      assert (bfv = bf) as -> by congruence.
      destruct Hcase as [(? & ? & ? & ? & _)|(? & _)]; [|lia].
      exists new. split_and!; [done|congruence..|by right].
    + rewrite list_lookup_insert_ne by done.
      exists bf. split_and!; [done..|by left].
Qed.

(** X11. A buffer that is referred to outlives any run of acquisitions.
    Through any sequence of calls of [bget], by whatever processes and for
    whatever blocks, a buffer whose reference count is positive keeps its
    identity, its [valid] flag, its payload and its stamp, and its count
    only grows, by at most one per call. (The bound on the count keeps the
    unsigned counter from wrapping around to 0.) *)
Theorem referenced_buffer_survives reqs s s' b bf :
  bget_all reqs s = Some s' →
  bufs s !! b = Some bf →
  0 < refcnt bf →
  refcnt bf + Z.of_nat (length reqs) < 2 ^ 32 →
  ∃ bf', bufs s' !! b = Some bf' ∧
    dev bf' = dev bf ∧ blockno bf' = blockno bf ∧ valid bf' = valid bf ∧
    data bf' = data bf ∧ lastuse bf' = lastuse bf ∧
    refcnt bf ≤ refcnt bf' ≤ refcnt bf + Z.of_nat (length reqs).
Proof.
  revert s bf. induction reqs as [|[[p dev'] blockno'] reqs IH];
    intros s bf Hall Hb Hr Hbound.
  - injection Hall as <-. exists bf. split_and!; try done. simpl. lia.
  - simpl in Hall, Hbound.
    destruct (state_of (bget p dev' blockno' s)) as [s1|] eqn:Hs1; [|done].
    destruct (bget_keeps_referenced _ _ _ _ _ _ _ Hs1 Hb Hr)
      as (bf1 & Hb1 & Hd1 & Hn1 & Hv1 & Hdata1 & Hl1 & Hr1).
    assert (refcnt bf ≤ refcnt bf1 ≤ refcnt bf + 1) as Hr1'.
    { destruct Hr1 as [->| ->]; [lia|]. rewrite wrap32_small; lia. }
    destruct (IH s1 bf1 Hall Hb1) as (bf' & Hb' & Hd' & Hn' & Hv' & Hdata'
                                      & Hl' & Hr'); [lia..|].
    exists bf'. split_and!; [done|congruence..|lia|simpl length; lia].
Qed.

(** ** Block numbers above the range of [int] *)

(** X12. The hash of a large block number. [bget] passes the unsigned
    block number to [myhash], which takes an [int]: a block number of
    2^31 or more arrives as a negative number, and unless [NBUCKET]
    divides it the remainder is negative too. [bget], and [bread] with it,
    then index the shard locks below the array, before any lock is taken
    or any buffer looked at. *)
Theorem bget_large_blockno_out_of_bounds p dev' blockno' s :
  (0 < NBUCKET)%nat →
  2 ^ 31 ≤ blockno' < 2 ^ 32 →
  Z.rem (blockno' - 2 ^ 32) (Z.of_nat NBUCKET) ≠ 0 →
  myhash (to_int blockno') < 0 ∧
  bget p dev' blockno' s = Fault ∧
  bread p dev' blockno' s = Fault.
Proof.
  intros Hk Hb Hrem.
  assert (myhash (to_int blockno') < 0) as Hneg.
  { unfold myhash, to_int.
    assert ((blockno' <? 2 ^ 31) = false) as -> by lia.
    pose proof (Z.rem_nonpos (blockno' - 2 ^ 32) (Z.of_nat NBUCKET)
                  ltac:(lia) ltac:(lia)) as Hle.
    lia. }
  assert (bget p dev' blockno' s = Fault) as Hg.
  { unfold bget, shard, bucket_index.
    assert ((0 <=? myhash (to_int blockno')) = false) as -> by lia.
    done. }
  split_and!; [done..|].
  unfold bread. unfold bind at 1. by rewrite Hg.
Qed.

(** ** Ties between stamps *)

(** X13. Ties go to the tail. The victim loops compare stamps with [<=]:
    the victim they pick is a member without references whose stamp is at
    most the current tick, no member without references before it in the
    list has an older stamp, and every member without references after it
    in the list has a strictly younger one. Among members of equal stamp
    the one furthest from the head of the list is taken. *)
Theorem victim_is_last_of_the_oldest bs members minticks v :
  (scan_victim bs members minticks None).2 = Some v →
  ∃ before after bf,
    members = before ++ v :: after ∧ bs !! v = Some bf ∧
    refcnt bf = 0 ∧ lastuse bf ≤ minticks ∧
    (∀ x bfx, x ∈ before → bs !! x = Some bfx → refcnt bfx = 0 →
       lastuse bf ≤ lastuse bfx) ∧
    (∀ x bfx, x ∈ after → bs !! x = Some bfx → refcnt bfx = 0 →
       lastuse bf < lastuse bfx).
Proof.
  intros Hv.
  destruct (scan_victim_Some _ _ _ _ Hv) as (bf0 & _ & Hbf0 & _ & _ & Hmin).
  destruct (scan_victim bs members minticks None) as [m o] eqn:Hs.
  simpl in Hv. subst o.
  destruct (scan_victim_last _ _ _ _ _ _ Hs)
    as [(? & _)|(before & after & bf & -> & Hbf & Hr & Hl & Hle & Hafter)];
    [done|].
  assert (bf0 = bf) as -> by congruence.
  exists before, after, bf. split_and!; [done|done|done|lia| |].
  - intros x bfx Hx. apply Hmin. apply elem_of_app. by left.
  - intros x bfx Hx Hbx Hrx. rewrite Hl. by eapply Hafter.
Qed.


End BioFacts.

(** ** The small configuration *)

Example demo_binit : binit 3 4 (boot 3 4 2 demo_disk) = Ret tt demo_init.
Proof. reflexivity. Qed.

(** Case analysis on the index of a buffer of a concrete state. *)
Ltac each_buf x Hx :=
  repeat (destruct x as [|x]; [injection Hx as <-|]); [..|done].

(** *** Shard locks *)

(** C1 as stated fails. From [demo_init], [bget] for block 1 finds its
    shard 1 empty and steals from shard 0: it takes the lock of shard 0
    while it holds the lock of shard 1. *)
Lemma bget_steal_holds_two_locks :
  bget 3 7 1 1 demo_init = Ret 0%nat demo_stolen ∧
  trace demo_stolen =
    [EvAcquire 1; EvAcquire 0; EvDetach 0 0; EvRelease 0; EvAttach 1 0;
     EvRelease 1; EvAcquireSleep 0] ∧
  held_after [EvAcquire 1; EvAcquire 0] = [0; 1]%nat ∧
  ¬ bget_one_lock_at_a_time 3.
Proof.
  split_and!; [reflexivity..|].
  intros Hone.
  destruct (Hone 7%nat 1 1 demo_init demo_stolen eq_refl) as (evs & Htr & Hevs).
  simpl in Htr. subst evs.
  assert ([EvAcquire 1; EvAcquire 0] `prefix_of`
          [EvAcquire 1; EvAcquire 0; EvDetach 0 0; EvRelease 0; EvAttach 1 0;
           EvRelease 1; EvAcquireSleep 0])
    as Hpre by by eexists.
  apply Hevs in Hpre. vm_compute in Hpre. lia.
Qed.

Lemma bget_holds_target_and_one_other_witness :
  state_of (bget 3 7 1 1 demo_init) = Some demo_stolen ∧
  ∃ id evs,
    shard_of 3 1 = Some id ∧
    trace demo_stolen = trace demo_init ++ evs ∧
    target_and_one_other id evs ∧
    moves_under_locks id evs ∧
    held_after evs = [] ∧
    target_held_until_release id evs [EvAcquireSleep 0].
Proof.
  split; [reflexivity|].
  apply (bget_holds_target_and_one_other 3 7 1 1 demo_init demo_stolen).
  reflexivity.
Defined.

(** *** The hit path *)

(** C2 as stated fails. After [binit] every buffer has identity (0, 0) and
    [valid] false; [bget] for block 0 of device 0 finds buffer 3, the first
    in bucket 0, on the hit path and returns it with [valid] false. In the
    same way, while process 7 holds buffer 0 for block 1 of device 1 and
    has not read it yet, [bget] by process 8 for that block takes the hit
    path to buffer 0, raises its reference count to 2 and sleeps on its
    lock. *)
Lemma bget_hit_returns_invalid :
  find_cached (bufs demo_init) [3; 2; 1; 0]%nat 0 0 = Some 3%nat ∧
  valid <$> bufs demo_init !! 3%nat = Some false ∧
  (∃ s', bget 3 7 0 0 demo_init = Ret 3%nat s' ∧
     valid <$> bufs s' !! 3%nat = Some false) ∧
  valid <$> bufs demo_stolen !! 0%nat = Some false ∧
  (∃ s', bget 3 8 1 1 demo_stolen = Sleep 0%nat s' ∧
     refcnt <$> bufs s' !! 0%nat = Some 2) ∧
  ¬ hit_requires_valid 3.
Proof.
  split_and!; [reflexivity..| |reflexivity| |].
  - eexists. split; reflexivity.
  - eexists. split; reflexivity.
  - intros Hhit.
    by apply (Hhit 7%nat 0 0 demo_init 0%nat [3; 2; 1; 0]%nat 3%nat (zero_buf 2)).
Qed.

Lemma bget_hit_ignores_valid_witness :
  shard_of 3 0 = Some 0%nat ∧
  buckets demo_init !! 0%nat = Some ([] ++ 3 :: [2; 1; 0])%nat ∧
  bufs demo_init !! 3%nat = Some (zero_buf 2) ∧
  valid (zero_buf 2) = false ∧
  bget 3 7 0 0 demo_init =
    Ret 3%nat (State
      (<[3%nat := Buf false 0 0 (Some 7%nat) 1 0 [x00; x00]]> (bufs demo_init))
      (buckets demo_init) 0 demo_disk
      [EvAcquire 0; EvRelease 0; EvAcquireSleep 3]).
Proof.
  split_and!; [reflexivity..|].
  apply (bget_hit_ignores_valid 3 7 0 0 demo_init 0%nat [] 3%nat [2; 1; 0]%nat
           (zero_buf 2)); [reflexivity..|done|].
  intros x bfx []%elem_of_nil.
Defined.

(** *** Calls without the sleep lock *)

(** C3 as stated fails. Nobody holds the sleep lock of buffer 0 after
    [binit], and [bpin] on it returns with the reference count raised. *)
Lemma bpin_unheld_does_not_panic :
  lock <$> bufs demo_init !! 0%nat = Some None ∧
  (∃ s', bpin 3 0 demo_init = Ret tt s' ∧
     refcnt <$> bufs s' !! 0%nat = Some 1) ∧
  ¬ (unheld_is_fatal bwrite ∧ unheld_is_fatal (brelse 3) ∧
     unheld_is_fatal (λ _, bpin 3) ∧ unheld_is_fatal (λ _, bunpin 3)).
Proof.
  split_and!; [reflexivity| |].
  - eexists. split; reflexivity.
  - intros (_ & _ & Hpin & _).
    destruct (Hpin 7%nat 0%nat demo_init (zero_buf 2) eq_refl) as (msg & s' & Hp);
      [done|]. vm_compute in Hp. discriminate.
Qed.

Lemma unheld_is_fatal_for_bwrite_brelse_only_witness :
  bufs demo_init !! 0%nat = Some (zero_buf 2) ∧
  lock (zero_buf 2) ≠ Some 7%nat ∧
  shard_of 3 (blockno (zero_buf 2)) = Some 0%nat ∧
  bwrite 7 0 demo_init = Panic "bwrite" demo_init ∧
  brelse 3 7 0 demo_init = Panic "brelse" demo_init ∧
  (∀ msg s', bpin 3 0 demo_init ≠ Panic msg s') ∧
  bpin 3 0 demo_init =
    Ret tt (State (<[0%nat := set_refcnt 1 (zero_buf 2)]> (bufs demo_init))
              (buckets demo_init) 0 demo_disk [EvAcquire 0; EvRelease 0]).
Proof.
  destruct (unheld_is_fatal_for_bwrite_brelse_only 3 0 demo_init (zero_buf 2)
              eq_refl) as (Hfatal & Hnever & Hgo).
  split_and!; [reflexivity|done|reflexivity|..].
  - by apply (Hfatal 7%nat).
  - by apply (Hfatal 7%nat).
  - intros msg s'. apply Hnever.
  - by apply (Hgo 0%nat).
Defined.

(** *** Capacity *)

Lemma bget_capacity_exhausted_witness :
  shard_of 3 9 = Some 0%nat ∧
  binit 3 4 (boot 3 4 2 demo_disk) = Ret tt demo_init ∧
  acquire_all 3 demo_requests demo_init = Some demo_full ∧
  bget 3 5 1 9 demo_full =
    Panic "bget: no buf"
      (State (bufs demo_full) (buckets demo_full) 0 demo_disk
         (trace demo_full ++
            [EvAcquire 0; EvAcquire 1; EvRelease 1; EvAcquire 2; EvRelease 2;
             EvRelease 0])) ∧
  handed_out (bget 3 5 1 9 demo_full) = None.
Proof.
  split_and!; [reflexivity..| |].
  - destruct (bget_capacity_exhausted 3 4 2 5 1 9 demo_full 0 eq_refl)
      as [Hbusy _].
    apply (Hbusy [2%nat]); [reflexivity..| |].
    + intros x bf _ Hx. each_buf x Hx; by intros [_ ?].
    + intros i m x bf _ _ Hx. each_buf x Hx; done.
  - destruct (bget_capacity_exhausted 3 4 2 5 1 9 demo_full 0 eq_refl)
      as [_ Hfull].
    rewrite (Hfull demo_disk demo_init demo_requests); [reflexivity..|].
    intros x bf Hx. each_buf x Hx; by intros [_ ?].
Defined.

(** *** Eviction *)

Lemma bget_eviction_safety_witness :
  state_of (bget 3 8 1 4 demo_read) =
    Some (demo_after (bget 3 8 1 4 demo_read)) ∧
  handed_out (bget 3 8 1 4 demo_read) = Some 1%nat ∧
  refcnt <$> bufs demo_read !! 1%nat = Some 0 ∧
  ∃ bf', bufs (demo_after (bget 3 8 1 4 demo_read)) !! 0%nat = Some bf' ∧
    dev bf' = 1 ∧ blockno bf' = 1 ∧ valid bf' = true ∧ lastuse bf' = 0 ∧
    data bf' = [x00; x00].
Proof.
  split_and!; [reflexivity..|].
  destruct (bget_eviction_safety 3 8 1 4 demo_read
              (demo_after (bget 3 8 1 4 demo_read)) eq_refl)
    as (_ & _ & Hkeep).
  by apply (Hkeep 0%nat (Buf true 1 1 (Some 7%nat) 1 0 [x00; x00])).
Defined.



(** *** Reading through *)

Lemma bread_reads_iff_invalid_witness :
  bget 3 7 1 1 demo_init = Ret 0%nat demo_stolen ∧
  valid <$> bufs demo_stolen !! 0%nat = Some false ∧
  bread 3 7 1 1 demo_init = Ret 0%nat demo_read ∧
  trace demo_read = trace demo_stolen ++ [EvDisk 0 false] ∧
  valid <$> bufs demo_released !! 0%nat = Some true ∧
  bread 3 8 1 1 demo_released =
    Ret 0%nat (State
      (<[0%nat := Buf true 1 1 (Some 8%nat) 1 5 [x00; x00]]>
         (bufs demo_released))
      (buckets demo_released) 5 demo_disk
      (trace demo_released ++ [EvAcquire 1; EvRelease 1; EvAcquireSleep 0])) ∧
  bget 3 8 1 1 demo_stolen = Sleep 0%nat demo_waiting ∧
  bread 3 8 1 1 demo_stolen = Sleep 0%nat demo_waiting ∧
  wakeup 8 0 demo_waiting = Sleep 0%nat demo_waiting ∧
  bufs demo_woken !! 0%nat = Some (Buf false 1 1 None 1 0 [x00; x00]) ∧
  wakeup 8 0 demo_woken =
    Ret 0%nat (State
      (<[0%nat := Buf true 1 1 (Some 8%nat) 1 0 [x00; x00]]>
         (bufs demo_woken))
      (buckets demo_woken) 0 demo_disk
      (trace demo_woken ++ [EvAcquireSleep 0; EvDisk 0 false])).
Proof.
  split_and!; [reflexivity..| | |reflexivity| |reflexivity| | |reflexivity|].
  - destruct (bread_reads_iff_invalid 3 7 1 1 demo_init) as (Hread & _ & _).
    destruct (Hread 0%nat demo_stolen eq_refl) as (bf & evs & Hbf & _ & _ & ->).
    injection Hbf as <-. reflexivity.
  - reflexivity.
  - destruct (bread_reads_iff_invalid 3 8 1 1 demo_released) as (_ & Hhit & _).
    by apply (Hhit 1%nat [] 0%nat [] (Buf true 1 1 None 0 5 [x00; x00]));
      [..|intros x bfx []%elem_of_nil| |].
  - destruct (bread_reads_iff_invalid 3 8 1 1 demo_stolen) as (_ & _ & _ & Hwait).
    by destruct (Hwait 0%nat demo_waiting eq_refl) as (Hbread & _ & _).
  - destruct (bread_reads_iff_invalid 3 8 1 1 demo_stolen) as (_ & _ & _ & Hwait).
    destruct (Hwait 0%nat demo_waiting eq_refl) as (_ & _ & Hwake).
    exact (Hwake demo_waiting (Buf false 1 1 (Some 7%nat) 2 0 [x00; x00])
             eq_refl).
  - destruct (bread_reads_iff_invalid 3 8 1 1 demo_stolen) as (_ & _ & _ & Hwait).
    destruct (Hwait 0%nat demo_waiting eq_refl) as (_ & _ & Hwake).
    exact (Hwake demo_woken (Buf false 1 1 None 1 0 [x00; x00]) eq_refl).
Defined.

(** *** Release, pin and unpin *)

Lemma brelse_releases_witness :
  bufs demo_later !! 0%nat = Some (Buf true 1 1 (Some 7%nat) 1 0 [x00; x00]) ∧
  shard_of 3 1 = Some 1%nat ∧
  brelse 3 7 0 demo_later =
    Ret tt (State
      (<[0%nat := Buf true 1 1 None 0 5 [x00; x00]]> (bufs demo_later))
      (buckets demo_later) 5 demo_disk
      (trace demo_later ++ [EvReleaseSleep 0; EvAcquire 1; EvRelease 1])).
Proof.
  split_and!; [reflexivity..|].
  by apply (brelse_releases 3 7 0 demo_later
              (Buf true 1 1 (Some 7%nat) 1 0 [x00; x00]) 1).
Defined.

Lemma bunpin_keeps_lastuse_witness :
  bufs demo_later !! 0%nat = Some (Buf true 1 1 (Some 7%nat) 1 0 [x00; x00]) ∧
  shard_of 3 1 = Some 1%nat ∧
  bunpin 3 0 demo_later =
    Ret tt (State
      (<[0%nat := Buf true 1 1 (Some 7%nat) 0 0 [x00; x00]]> (bufs demo_later))
      (buckets demo_later) 5 demo_disk
      (trace demo_later ++ [EvAcquire 1; EvRelease 1])) ∧
  ∃ s', brelse 3 7 0 demo_later = Ret tt s' ∧
    lastuse <$> bufs s' !! 0%nat = Some 5.
Proof.
  destruct (bunpin_keeps_lastuse 3 0 demo_later
              (Buf true 1 1 (Some 7%nat) 1 0 [x00; x00]) 1 eq_refl eq_refl)
    as (Hunpin & Hrelse & _); [done|].
  split_and!; [reflexivity..|exact Hunpin|].
  by apply (Hrelse 7%nat).
Defined.

(** *** Buffers and their shards *)

Lemma demo_read_reachable : reachable 3 4 2 demo_read.
Proof.
  apply reachable_step with (s := demo_init).
  - by apply (reachable_init 3 4 2 demo_disk).
  - by apply (step_bread 3 demo_init 7%nat 1 1).
Qed.

Lemma demo_big_reachable : reachable 3 4 2 demo_big.
Proof.
  apply reachable_step with (s := demo_init).
  - by apply (reachable_init 3 4 2 demo_disk).
  - by apply (step_bread 3 demo_init 7%nat 1 4294967293).
Qed.

(** C9 as stated fails. Block 4294967293 is -3 as an [int], so it hashes
    to shard 0, and [bread] puts it into buffer 0 in bucket 0; the number
    modulo 3 is 1. *)
Lemma bucket_is_not_blockno_mod :
  bread 3 7 1 4294967293 demo_init = Ret 0%nat demo_big ∧
  shard_of 3 4294967293 = Some 0%nat ∧
  buckets demo_big !! 0%nat = Some [3; 2; 1; 0]%nat ∧
  bufs demo_big !! 0%nat =
    Some (Buf true 1 4294967293 (Some 7%nat) 1 0 [x00; x00]) ∧
  4294967293 mod 3 = 1 ∧
  ¬ bucket_is_blockno_mod 3 4 2.
Proof.
  split_and!; [reflexivity..|].
  intros Hmod.
  pose proof (Hmod demo_big demo_big_reachable 0%nat [3; 2; 1; 0]%nat 0%nat
                (Buf true 1 4294967293 (Some 7%nat) 1 0 [x00; x00])
                eq_refl ltac:(do 3 right; left) eq_refl) as Hi.
  vm_compute in Hi. discriminate.
Qed.

Lemma slot_in_shard_of_its_blockno_witness :
  reachable 3 4 2 demo_read ∧
  buckets demo_read !! 1%nat = Some [0%nat] ∧
  shard_of 3 (blockno (Buf true 1 1 (Some 7%nat) 1 0 [x00; x00])) = Some 1%nat ∧
  shard_of 3 4294967293 = Some 0%nat ∧
  shard_of 3 4294967294 = None ∧
  ∃ s', brelse 3 7 0 demo_read = Ret tt s' ∧
    trace s' =
      trace demo_read ++ [EvReleaseSleep 0; EvAcquire 1; EvRelease 1].
Proof.
  split_and!; [apply demo_read_reachable|reflexivity| | | |].
  - destruct (slot_in_shard_of_its_blockno 3 4 2 demo_read demo_read_reachable)
      as (_ & _ & Hhashed & _ & _).
    apply (Hhashed 1%nat [0%nat] 0%nat (Buf true 1 1 (Some 7%nat) 1 0 [x00; x00]));
      [reflexivity|left|reflexivity].
  - destruct (slot_in_shard_of_its_blockno 3 4 2 demo_read demo_read_reachable)
      as (_ & Hlarge & _).
    rewrite (Hlarge 4294967293) by lia. reflexivity.
  - destruct (slot_in_shard_of_its_blockno 3 4 2 demo_read demo_read_reachable)
      as (_ & Hlarge & _).
    rewrite (Hlarge 4294967294) by lia. reflexivity.
  - destruct (slot_in_shard_of_its_blockno 3 4 2 demo_read demo_read_reachable)
      as (_ & _ & _ & _ & Hlock).
    destruct (Hlock 0%nat (Buf true 1 1 (Some 7%nat) 1 0 [x00; x00]) eq_refl)
      as (id & m & Hid & _ & _ & _ & _ & Hrelse).
    injection Hid as <-. by apply (Hrelse 7%nat).
Defined.

(** *** Further properties *)

Lemma demo_released_reachable : reachable 3 4 2 demo_released.
Proof.
  apply reachable_step with (s := demo_later).
  - apply reachable_step with (s := demo_read); [apply demo_read_reachable|].
    by apply (step_tick 3 demo_read 5).
  - by apply (step_brelse 3 demo_later 7%nat 0%nat).
Qed.

Lemma binit_links_all_into_bucket_0_witness :
  (0 < 3)%nat ∧
  binit 3 4 (boot 3 4 2 demo_disk) =
    Ret tt (State (replicate 4 (zero_buf 2)) [[3; 2; 1; 0]; []; []]%nat 0
              demo_disk []).
Proof.
  split; [lia|].
  destruct (binit_links_all_into_bucket_0 3 4 2 demo_disk) as [Hlinks _].
  apply Hlinks. lia.
Defined.

Lemma bget_never_writes_back_witness :
  state_of (bget 3 8 1 4 demo_read) =
    Some (demo_after (bget 3 8 1 4 demo_read)) ∧
  disk (demo_after (bget 3 8 1 4 demo_read)) = disk demo_read ∧
  ∃ bf', bufs (demo_after (bget 3 8 1 4 demo_read)) !! 1%nat = Some bf' ∧
    data bf' = [x00; x00] ∧ lastuse bf' = 0.
Proof.
  split; [reflexivity|].
  destruct (bget_never_writes_back 3 8 1 4 demo_read
              (demo_after (bget 3 8 1 4 demo_read)) eq_refl)
    as (Hdisk & _ & _ & Hkeep).
  split; [exact Hdisk|].
  by apply (Hkeep 1%nat (zero_buf 2)).
Defined.

Lemma bget_never_duplicates_witness :
  reachable 3 4 2 demo_read ∧
  state_of (bget 3 8 1 4 demo_read) =
    Some (demo_after (bget 3 8 1 4 demo_read)) ∧
  handed_out (bget 3 8 1 4 demo_read) = Some 1%nat ∧
  ∀ b bf, bufs (demo_after (bget 3 8 1 4 demo_read)) !! b = Some bf →
    dev bf = 1 ∧ blockno bf = 4 → b = 1%nat.
Proof.
  split_and!; [apply demo_read_reachable|reflexivity..|].
  destruct (bget_never_duplicates 3 4 2 8 1 4 demo_read
              (demo_after (bget 3 8 1 4 demo_read)) 1
              demo_read_reachable eq_refl eq_refl) as [_ Hnew].
  apply Hnew. intros b bf Hb. each_buf b Hb; by intros [_ ?].
Defined.

Lemma pool_fixed_and_partitioned_witness :
  reachable 3 4 2 demo_released ∧
  length (bufs demo_released) = 4%nat ∧
  length (buckets demo_released) = 3%nat.
Proof.
  split; [apply demo_released_reachable|].
  destruct (pool_fixed_and_partitioned 3 4 2 demo_released
              demo_released_reachable) as (Hbufs & Hbuckets & _).
  by split.
Defined.

Lemma lastuse_never_after_ticks_witness :
  reachable 3 4 2 demo_released ∧
  bufs demo_released !! 0%nat = Some (Buf true 1 1 None 0 5 [x00; x00]) ∧
  lastuse (Buf true 1 1 None 0 5 [x00; x00]) ≤ ticks demo_released.
Proof.
  split_and!; [apply demo_released_reachable|reflexivity|].
  by apply (lastuse_never_after_ticks 3 4 2 demo_released 0%nat
              (Buf true 1 1 None 0 5 [x00; x00]) demo_released_reachable).
Defined.

Lemma bwrite_writes_one_block_witness :
  bufs demo_read !! 0%nat = Some (Buf true 1 1 (Some 7%nat) 1 0 [x00; x00]) ∧
  ∃ s', bwrite 7 0 demo_read = Ret tt s' ∧
    bufs s' = bufs demo_read ∧ buckets s' = buckets demo_read ∧
    ticks s' = ticks demo_read ∧
    trace s' = trace demo_read ++ [EvDisk 0 true] ∧
    disk s' 1 1 = [x00; x00] ∧
    ∀ d n, ¬ (d = 1 ∧ n = 1) → disk s' d n = disk demo_read d n.
Proof.
  split; [reflexivity|].
  by apply (bwrite_writes_one_block 7 0 demo_read
              (Buf true 1 1 (Some 7%nat) 1 0 [x00; x00])).
Defined.

Lemma bread_returns_locked_valid_witness :
  bread 3 7 1 1 demo_init = Ret 0%nat demo_read ∧
  (∃ bf, bufs demo_read !! 0%nat = Some bf ∧
     dev bf = 1 ∧ blockno bf = 1 ∧ valid bf = true ∧ lock bf = Some 7%nat ∧
     (∃ s'', bwrite 7 0 demo_read = Ret tt s'') ∧
     (∃ s'', brelse 3 7 0 demo_read = Ret tt s'')) ∧
  bufs demo_woken !! 0%nat = Some (Buf false 1 1 None 1 0 [x00; x00]) ∧
  wakeup 8 0 demo_woken = Ret 0%nat demo_handed ∧
  ∃ bf, bufs demo_handed = <[0%nat := bf]> (bufs demo_woken) ∧
    dev bf = 1 ∧ blockno bf = 1 ∧ refcnt bf = 1 ∧
    valid bf = true ∧ lock bf = Some 8%nat ∧
    data bf = demo_disk 1 1 ∧
    trace demo_handed = trace demo_woken ++ [EvAcquireSleep 0; EvDisk 0 false] ∧
    (∃ s'', bwrite 8 0 demo_handed = Ret tt s'').
Proof.
  split_and!; [reflexivity| |reflexivity|reflexivity|].
  - destruct (bread_returns_locked_valid 3 7 1 1 demo_init 0 demo_read)
      as [Hdirect _].
    destruct (Hdirect eq_refl)
      as (bf & bf0 & _ & _ & Hbf & Hd & Hn & Hv & Hl & _ & Hw & Hr).
    exists bf. by split_and!.
  - destruct (bread_returns_locked_valid 3 8 1 1 demo_woken 0 demo_handed)
      as [_ Hwoken].
    destruct (Hwoken eq_refl)
      as (bf & bf0 & Hbf0 & _ & Hbufs & Hd & Hn & Hr & _ & Hv & Hl & _ & _ & _
          & Hdata & Hw & _).
    injection Hbf0 as <-. simpl in *.
    destruct Hdata as [(_ & Hdata & Htr)|(? & _)]; [|done].
    exists bf. by split_and!.
Defined.

Lemma bpin_bunpin_cancel_witness :
  bufs demo_read !! 0%nat = Some (Buf true 1 1 (Some 7%nat) 1 0 [x00; x00]) ∧
  shard_of 3 1 = Some 1%nat ∧
  (bpin 3 0;; bunpin 3 0) demo_read =
    Ret tt (State (bufs demo_read) (buckets demo_read) 0 demo_disk
              (trace demo_read ++ [EvAcquire 1; EvRelease 1;
                                   EvAcquire 1; EvRelease 1])).
Proof.
  split_and!; [reflexivity..|].
  destruct (bpin_bunpin_cancel 3 0 demo_read
              (Buf true 1 1 (Some 7%nat) 1 0 [x00; x00]) 1 eq_refl eq_refl)
    as [Hcancel _]; [simpl; lia|].
  exact Hcancel.
Defined.

Lemma bread_brelse_round_trip_witness :
  shard_of 3 1 = Some 1%nat ∧
  buckets demo_released !! 1%nat = Some ([] ++ 0%nat :: []) ∧
  bufs demo_released !! 0%nat = Some (Buf true 1 1 None 0 5 [x00; x00]) ∧
  (b' ← bread 3 8 1 1; brelse 3 8 b') demo_released =
    Ret tt (State (bufs demo_released) (buckets demo_released) 5 demo_disk
              (trace demo_released ++
                 [EvAcquire 1; EvRelease 1; EvAcquireSleep 0;
                  EvReleaseSleep 0; EvAcquire 1; EvRelease 1])).
Proof.
  split_and!; [reflexivity..|].
  apply (bread_brelse_round_trip 3 8 1 1 demo_released 1 [] 0 []
           (Buf true 1 1 None 0 5 [x00; x00]));
    [reflexivity|reflexivity|reflexivity|by split| |reflexivity|reflexivity
    |simpl; lia].
  by intros x bfx ?%elem_of_nil.
Defined.

Lemma bget_steals_from_first_shard_witness :
  length (buckets demo_one_free) = 3%nat ∧
  shard_of 3 5 = Some 2%nat ∧
  buckets demo_one_free !! 2%nat = Some [1%nat] ∧
  buckets demo_one_free !! 1%nat = Some [3; 0]%nat ∧
  candidate (bufs demo_one_free) (ticks demo_one_free) 3 ∧
  ∃ v bf,
    v ∈ [3; 0]%nat ∧ bufs demo_one_free !! v = Some bf ∧ refcnt bf = 0 ∧
    bget 3 7 1 5 demo_one_free =
      (acquiresleep 7 v;; ret v)
        (State (<[v := reinit 1 5 bf]> (bufs demo_one_free))
           (<[2%nat := [v; 1%nat]]>
              (<[1%nat := unlink v [3; 0]%nat]> (buckets demo_one_free)))
           0 demo_disk
           (trace demo_one_free ++
              [EvAcquire 2; EvAcquire 0; EvRelease 0; EvAcquire 1;
               EvDetach 1 v; EvRelease 1; EvAttach 2 v; EvRelease 2])).
Proof.
  assert (candidate (bufs demo_one_free) (ticks demo_one_free) 3) as Hcand.
  { exists (Buf false 1 4 None 0 0 [x00; x00]). by split_and!. }
  split_and!; [reflexivity..|exact Hcand|].
  destruct (bget_steals_from_first_shard 3 7 1 5 demo_one_free 2 [1%nat] 1
              [3; 0]%nat) as (v & bf & Hin & Hbf & Hr & _ & Hget);
    [reflexivity..| | |lia|reflexivity| | |].
  - intros x bf _ Hx. each_buf x Hx; by intros [_ ?].
  - intros x ->%list_elem_of_singleton (bf & [= <-] & ? & _). done.
  - intros j m x Hj _ Hm Hx (bf & Hbf & Hr & _).
    assert (j = 0%nat) as -> by lia. injection Hm as <-.
    apply list_elem_of_singleton in Hx as ->. by injection Hbf as <-.
  - exists 3%nat. split; [by left|exact Hcand].
  - exists v, bf. by split_and!.
Defined.

Lemma referenced_buffer_survives_witness :
  bget_all 3 demo_crowd demo_read = Some demo_crowded ∧
  bufs demo_read !! 0%nat = Some (Buf true 1 1 (Some 7%nat) 1 0 [x00; x00]) ∧
  ∃ bf', bufs demo_crowded !! 0%nat = Some bf' ∧
    dev bf' = 1 ∧ blockno bf' = 1 ∧ valid bf' = true ∧
    data bf' = [x00; x00] ∧ lastuse bf' = 0 ∧ 1 ≤ refcnt bf' ≤ 1 + 2.
Proof.
  split_and!; [reflexivity..|].
  apply (referenced_buffer_survives 3 demo_crowd demo_read demo_crowded 0
           (Buf true 1 1 (Some 7%nat) 1 0 [x00; x00]));
    [reflexivity|reflexivity|simpl; lia|simpl; lia].
Defined.

Lemma bget_large_blockno_out_of_bounds_witness :
  (0 < 3)%nat ∧
  2 ^ 31 ≤ 2 ^ 31 + 1 < 2 ^ 32 ∧
  Z.rem (2 ^ 31 + 1 - 2 ^ 32) (Z.of_nat 3) = -1 ∧
  myhash 3 (to_int (2 ^ 31 + 1)) < 0 ∧
  bget 3 7 1 (2 ^ 31 + 1) demo_init = Fault ∧
  bread 3 7 1 (2 ^ 31 + 1) demo_init = Fault.
Proof.
  split_and!; [lia|lia|lia|reflexivity|..];
    destruct (bget_large_blockno_out_of_bounds 3 7 1 (2 ^ 31 + 1) demo_init)
      as (Hneg & Hget & Hread); try done; lia.
Defined.

Lemma victim_is_last_of_the_oldest_witness :
  (scan_victim (bufs demo_init) [3; 2; 1; 0]%nat 0 None).2 = Some 0%nat ∧
  ∃ before after bf,
    [3; 2; 1; 0]%nat = before ++ 0%nat :: after ∧
    bufs demo_init !! 0%nat = Some bf ∧ refcnt bf = 0 ∧ lastuse bf ≤ 0 ∧
    (∀ x bfx, x ∈ before → bufs demo_init !! x = Some bfx →
       refcnt bfx = 0 → lastuse bf ≤ lastuse bfx) ∧
    (∀ x bfx, x ∈ after → bufs demo_init !! x = Some bfx →
       refcnt bfx = 0 → lastuse bf < lastuse bfx).
Proof.
  split; [reflexivity|].
  by apply (victim_is_last_of_the_oldest (bufs demo_init) [3; 2; 1; 0]%nat 0 0).
Defined.

